(** * hackernews-mcp: the comment tree builder, the thread renderer and the
      content fetcher, embedded from [src/utils.ts] and [src/fetcher.ts]. *)

From Stdlib Require Import ZArith Lia Bool List Permutation Sorted String Ascii.
From Stdlib Require Import DecimalString.
From stdpp Require Import base list.
Import ListNotations.

Set Warnings "-register-all".
Local Open Scope Z_scope.

(** ** JavaScript strings

    A JavaScript string is a sequence of UTF-16 code units; [length],
    [substring] and the regular expressions of the sources (none carries the
    [u] flag) all count code units. *)

Abbreviation JSString := (list N) (only parsing).

(** An ASCII literal of the source, as code units. *)
Definition lit (s : string) : JSString :=
  map N_of_ascii (list_ascii_of_string s).

Definition str_eqb (a b : JSString) : bool := bool_decide (a = b).

(** ** Items of the Hacker News API ([Story] of [types.ts], which the sources
    import; the fields are the ones the sources read). *)

(** [time] arrives as a number of seconds or as a string; for a string,
    [parsed] is what [Date.parse] makes of it, [None] for [NaN]. *)
Inductive RawTime :=
| TimeNumber (seconds : Z)
| TimeString (s : JSString) (parsed : option Z)
| TimeAbsent.

Record Item := mkItem {
  item_id : Z;
  item_type : JSString;
  item_by : option JSString;
  item_time : RawTime;
  item_score : option Z;
  item_text : option JSString;
  item_title : option JSString;
  item_descendants : option Z;
  item_kids : option (list Z);
  item_deleted : bool;
  item_dead : bool
}.

(** The normalised time of a comment: the ISO string of a [Date], kept as
    the time value in milliseconds it prints, or [undefined]. *)
Inductive IsoTime :=
| IsoOfMillis (ms : Z)
| IsoUndefined.

(** [Comment]: the item's own fields ([...comment]), with [time] overwritten
    and [depth] and, possibly, [replies] added. *)
Inductive Comment := mkComment {
  spread : Item;
  depth : Z;
  time : IsoTime;
  replies : option (list Comment)
}.

Definition score (c : Comment) : option Z := item_score (spread c).

(** ** The item store behind [axiosInstance.get] *)

Inductive Lookup :=
| Fails                        (* the request throws: transport, timeout, status *)
| Gives (data : option Item).  (* [response.data]; JSON [null] is [None] *)

Definition ItemStore := Z -> Lookup.

(** [fetchItem]: [try { return response.data } catch { return null }]. *)
Definition fetchItem (axiosInstance : ItemStore) (id : Z) : option Item :=
  match axiosInstance id with
  | Fails => None
  | Gives data => data
  end.

(** ** [Array.prototype.sort]

    The sort is stable (ECMAScript 2019); with a comparator it places [a]
    before [b] when [cmp a b <= 0] and [a] came first.  A stable insertion
    sort is its model. *)

Fixpoint sort_insert {A} (cmp : A -> A -> Z) (x : A) (l : list A) : list A :=
  match l with
  | [] => [x]
  | y :: l' => if cmp x y <=? 0 then x :: y :: l' else y :: sort_insert cmp x l'
  end.

Definition Array_sort {A} (cmp : A -> A -> Z) (l : list A) : list A :=
  fold_right (sort_insert cmp) [] l.

(** [x || 0] on an optional integer. *)
Definition orZero (x : option Z) : Z :=
  match x with
  | Some v => v
  | None => 0
  end.

(** [(a, b) => (b.score || 0) - (a.score || 0)] *)
Definition byScoreDesc (a b : Comment) : Z :=
  orZero (score b) - orZero (score a).

(** ** [Promise.all]

    A promise is fulfilled with a value or rejected; the only error a
    callback of [fetchComments] can throw is the [RangeError] of
    [toISOString], so a rejection is [None].  Every promise that is
    fulfilled writes its value into the slot of its own position;
    [Promise.all] is rejected as soon as one promise is, and fulfilled with
    the slots when all are.  The order in which the promises settle is the
    scheduler's: the lookup in slot [i] of a call at depth [d], for [id],
    settles at time [latency d i id] (ties in position order). *)

Definition Schedule := Z -> nat -> Z -> nat.

Definition settleOrder (latency : Schedule) (currentDepth : Z) (ids : list Z)
  : list nat :=
  map fst
    (Array_sort (fun p q : nat * nat => Z.of_nat (snd p) - Z.of_nat (snd q))
       (imap (fun i id => (i, latency currentDepth i id)) ids)).

Definition settle {A} (promises : list (option A))
    (state : option (list (option A))) (i : nat) : option (list (option A)) :=
  match state with
  | None => None
  | Some slots =>
    match promises !! i with
    | Some (Some v) => Some (<[i := Some v]> slots)
    | Some None => None
    | None => Some slots
    end
  end.

Fixpoint settled {A} (slots : list (option A)) : list A :=
  match slots with
  | [] => []
  | Some v :: rest => v :: settled rest
  | None :: rest => settled rest
  end.

Definition Promise_all {A} (order : list nat) (promises : list (option A))
  : option (list A) :=
  option_map settled
    (fold_left (settle promises) order
       (Some (replicate (length promises) None))).

(** [comments.filter(Boolean)] on an array of [Comment | null]. *)
Fixpoint filterBoolean {A} (l : list (option A)) : list A :=
  match l with
  | [] => []
  | Some v :: rest => v :: filterBoolean rest
  | None :: rest => filterBoolean rest
  end.

(** ** [fetchComments] *)

(** [new Date(ms).toISOString()]: a [RangeError] ([None]) when the time value
    is [NaN] or beyond the range of [Date]. *)
Definition toISOString (ms : option Z) : option IsoTime :=
  match ms with
  | Some v => if Z.abs v <=? 8640000000000000 then Some (IsoOfMillis v) else None
  | None => None
  end.

(** [time] of the result object. *)
Definition normalizeTime (t : RawTime) : option IsoTime :=
  match t with
  | TimeNumber seconds => toISOString (Some (seconds * 1000))
  | TimeString [] _ => Some IsoUndefined
  | TimeString _ parsed => toISOString parsed
  | TimeAbsent => Some IsoUndefined
  end.

(** [comment && comment.type === 'comment' && !comment.deleted && !comment.dead] *)
Definition keeps (comment : Item) : bool :=
  str_eqb (item_type comment) (lit "comment")
  && negb (item_deleted comment) && negb (item_dead comment).

(** An id whose lookup gives an item the builder keeps. *)
Definition usable (axiosInstance : ItemStore) (id : Z) : bool :=
  match fetchItem axiosInstance id with
  | Some comment => keeps comment
  | None => false
  end.

(** [comment.kids && comment.kids.length > 0] *)
Definition hasKids (comment : Item) : bool :=
  match item_kids comment with
  | Some (_ :: _) => true
  | _ => false
  end.

Definition kidsOf (comment : Item) : list Z :=
  match item_kids comment with
  | Some ks => ks
  | None => []
  end.

(** One batch of lookups: the ids one invocation hands to [fetchItem], with
    the depth of the invocation. *)
Definition Batch := (Z * list Z)%type.

(** The recursion descends one level per call and stops at [maxDepth]; the
    fuel counts the levels left.  The first component is the array the
    promise is fulfilled with, [None] when it is rejected.  The second logs
    the lookups, one batch per invocation that passes the guard (parent
    before children; the interleaving of requests in time is not recorded). *)
Fixpoint fetchComments_fuel (fuel : nat) (axiosInstance : ItemStore)
    (latency : Schedule) (commentIds : list Z)
    (maxDepth minScore currentDepth : Z) {struct fuel}
  : option (list Comment) * list Batch :=
  match fuel with
  | O => (Some [], [])
  | S fuel' =>
    if (currentDepth >=? maxDepth) || (Nat.eqb (length commentIds) 0)
    then (Some [], [])
    else
      let callback (id : Z) : option (option Comment) * list Batch :=
        match fetchItem axiosInstance id with
        | Some comment =>
          if keeps comment then
            match normalizeTime (item_time comment) with
            | Some isoTime =>
              let result :=
                {| spread := comment;
                   depth := currentDepth;
                   time := isoTime;
                   replies := None |} in
              if hasKids comment && (currentDepth <? maxDepth - 1) then
                match fetchComments_fuel fuel' axiosInstance latency
                        (firstn 10 (kidsOf comment)) maxDepth minScore
                        (currentDepth + 1) with
                | (Some childComments, log) =>
                  (Some (Some {| spread := spread result;
                                 depth := depth result;
                                 time := time result;
                                 replies :=
                                   Some (Array_sort byScoreDesc childComments) |}),
                   log)
                | (None, log) => (None, log)
                end
              else (Some (Some result), [])
            | None => (None, [])
            end
          else (Some None, [])
        | None => (Some None, [])
        end in
      let outcomes := map callback commentIds in
      let comments :=
        Promise_all (settleOrder latency currentDepth commentIds)
          (map fst outcomes) in
      (match comments with
       | Some comments =>
         let validComments := filterBoolean comments in
         Some (Array_sort byScoreDesc validComments)
       | None => None
       end,
       (currentDepth, commentIds) :: concat (map snd outcomes))
  end.

Definition levelsLeft (maxDepth currentDepth : Z) : nat :=
  Z.to_nat (maxDepth - currentDepth).

Definition fetchComments (axiosInstance : ItemStore) (latency : Schedule)
    (commentIds : list Z) (maxDepth minScore currentDepth : Z)
  : option (list Comment) :=
  fst (fetchComments_fuel (levelsLeft maxDepth currentDepth) axiosInstance
         latency commentIds maxDepth minScore currentDepth).

(** The lookups [fetchComments] issues on the same arguments. *)
Definition fetchLog (axiosInstance : ItemStore) (latency : Schedule)
    (commentIds : list Z) (maxDepth minScore currentDepth : Z) : list Batch :=
  snd (fetchComments_fuel (levelsLeft maxDepth currentDepth) axiosInstance
         latency commentIds maxDepth minScore currentDepth).

(** What the callback of [fetchComments] settles with for one id: rejected
    ([None]), [null] ([Some None]) or a comment. *)
Definition nodeOf (axiosInstance : ItemStore) (latency : Schedule)
    (maxDepth minScore currentDepth : Z) (id : Z) : option (option Comment) :=
  match fetchItem axiosInstance id with
  | Some comment =>
    if keeps comment then
      match normalizeTime (item_time comment) with
      | Some isoTime =>
        if hasKids comment && (currentDepth <? maxDepth - 1) then
          match fetchComments axiosInstance latency
                  (firstn 10 (kidsOf comment)) maxDepth minScore
                  (currentDepth + 1) with
          | Some childComments =>
            Some (Some {| spread := comment; depth := currentDepth;
                          time := isoTime;
                          replies := Some (Array_sort byScoreDesc childComments) |})
          | None => None
          end
        else Some (Some {| spread := comment; depth := currentDepth;
                           time := isoTime; replies := None |})
      | None => None
      end
    else Some None
  | None => Some None
  end.

(** The lookups below one candidate of a level. *)
Definition childLog (axiosInstance : ItemStore) (latency : Schedule)
    (maxDepth minScore currentDepth : Z) (id : Z) : list Batch :=
  match fetchItem axiosInstance id with
  | Some comment =>
    if keeps comment then
      match normalizeTime (item_time comment) with
      | Some _ =>
        if hasKids comment && (currentDepth <? maxDepth - 1)
        then fetchLog axiosInstance latency (firstn 10 (kidsOf comment))
               maxDepth minScore (currentDepth + 1)
        else []
      | None => []
      end
    else []
  | None => []
  end.

(** All promises fulfilled: their values; one rejected: rejected. *)
Fixpoint allFulfilled {A} (promises : list (option A)) : option (list A) :=
  match promises with
  | [] => Some []
  | Some v :: rest => option_map (cons v) (allFulfilled rest)
  | None :: rest => None
  end.

(** What a level returns once its callbacks have settled. *)
Definition levelResult (promises : list (option (option Comment)))
  : option (list Comment) :=
  option_map (fun comments => Array_sort byScoreDesc (filterBoolean comments))
    (allFulfilled promises).

(** ** Walking a returned tree *)

(** A node and everything below it, parents first. *)
Fixpoint nodes (c : Comment) : list Comment :=
  c :: match replies c with
       | Some rs => flat_map nodes rs
       | None => []
       end.

Definition treeNodes (tree : list Comment) : list Comment :=
  flat_map nodes tree.

(** The [replies] array of a node, empty when the field is absent. *)
Definition repliesOf (c : Comment) : list Comment :=
  match replies c with
  | Some rs => rs
  | None => []
  end.

(** Every sibling sequence of a tree: the root array and the [replies] array
    of every node that has one. *)
Definition siblingSequences (tree : list Comment) : list (list Comment) :=
  tree :: flat_map (fun c => match replies c with
                             | Some rs => [rs]
                             | None => []
                             end) (treeNodes tree).

(** The score an ordering sees: [score || 0]. *)
Definition rank (c : Comment) : Z := orZero (score c).

(** The comparator [(a, b) => key(b) - key(a)] and the order it sorts into. *)
Definition descBy {A} (key : A -> Z) (a b : A) : Z := key b - key a.

Definition nonIncreasing {A} (key : A -> Z) : list A -> Prop :=
  StronglySorted (fun a b => key b <= key a).

(** ** Regular expressions of the sources

    A pattern is given by its matcher: the length of the match that starts at
    the head of the input, if there is one (none of the patterns of
    [utils.ts] matches the empty string).  [replace] with the [g] flag scans
    from the left, puts the replacement for every match and resumes behind
    it; [skip] counts the code units of a match still to pass. *)

Definition Pattern := JSString -> option nat.

Fixpoint replaceFrom (pattern : Pattern) (replacement : JSString) (skip : nat)
    (s : JSString) : JSString :=
  match s with
  | [] => []
  | c :: rest =>
    match skip with
    | S k => replaceFrom pattern replacement k rest
    | O =>
      match pattern s with
      | Some n => replacement ++ replaceFrom pattern replacement (Nat.pred n) rest
      | None => c :: replaceFrom pattern replacement O rest
      end
    end
  end.

Definition replace (pattern : Pattern) (replacement : JSString) (s : JSString)
  : JSString :=
  replaceFrom pattern replacement O s.

(** A pattern of literal characters, such as [/&quot;/]. *)
Fixpoint startsWith (literal s : JSString) : bool :=
  match literal, s with
  | [], _ => true
  | p :: literal', c :: s' => N.eqb p c && startsWith literal' s'
  | _ :: _, [] => false
  end.

Definition literally (literal : JSString) : Pattern := fun s =>
  if startsWith literal s then Some (length literal) else None.

(** The position of the first [stop] in [s]: the extent of [[^stop]*] when
    [stop] has to follow. *)
Fixpoint upTo (stop : N) (s : JSString) : option nat :=
  match s with
  | [] => None
  | c :: s' => if N.eqb c stop then Some O else option_map S (upTo stop s')
  end.

Definition quote : N := 34.       (* the double quote *)
Definition lessThan : N := 60.    (* < *)
Definition greaterThan : N := 62. (* > *)
Definition newline : N := 10.     (* \n *)

(** [/<[^>]*>/] *)
Definition anyTag : Pattern := fun s =>
  match s with
  | c :: s' =>
    if N.eqb c lessThan then option_map (fun n => S (S n)) (upTo greaterThan s')
    else None
  | [] => None
  end.

(** The opening tag of an anchor: [<a href=], the address between double
    quotes ([[^q]*] for the quote [q]), then [[^>]*>]. *)
Definition anchorOpen : Pattern := fun s =>
  let opening := lit "<a href=" ++ [quote] in
  if startsWith opening s then
    let s1 := skipn (length opening) s in
    match upTo quote s1 with
    | Some i =>
      match upTo greaterThan (skipn (S i) s1) with
      | Some j => Some (length opening + S i + S j)%nat
      | None => None
      end
    | None => None
    end
  else None.

(** [\s] *)
Definition isSpace (c : N) : bool :=
  ((9 <=? c) && (c <=? 13) || (c =? 32) || (c =? 160) || (c =? 5760)
   || (8192 <=? c) && (c <=? 8202) || (c =? 8232) || (c =? 8233)
   || (c =? 8239) || (c =? 8287) || (c =? 12288) || (c =? 65279))%N.

(** Within the white space at the head of [s], the length up to and with the
    last line break: where [\s*\n] ends, [\s*] being greedy. *)
Fixpoint throughLastNewline (s : JSString) : option nat :=
  match s with
  | [] => None
  | c :: s' =>
    if isSpace c then
      match throughLastNewline s' with
      | Some n => Some (S n)
      | None => if N.eqb c newline then Some 1%nat else None
      end
    else None
  end.

(** [/\n\s*\n/] *)
Definition blankLines : Pattern := fun s =>
  match s with
  | c :: s' =>
    if N.eqb c newline then option_map S (throughLastNewline s') else None
  | [] => None
  end.

(** The pattern matches nowhere in [s]. *)
Fixpoint noMatch (pattern : Pattern) (s : JSString) : bool :=
  match pattern s with
  | Some _ => false
  | None =>
    match s with
    | [] => true
    | _ :: rest => noMatch pattern rest
    end
  end.

(** [/\n\s+\n/]: two line breaks with only white space, and some, between
    them; a blank line that is not empty, or more than one blank line. *)
Definition blankGap : Pattern := fun s =>
  match s with
  | c :: w :: rest =>
    if N.eqb c newline && isSpace w
    then option_map (fun n => S (S n)) (throughLastNewline rest)
    else None
  | _ => None
  end.

(** [String.prototype.split] and [Array.prototype.join] for a separator of
    one code unit and a list of strings. *)
Fixpoint split (separator : N) (s : JSString) : list JSString :=
  match s with
  | [] => [[]]
  | c :: s' =>
    if N.eqb c separator then [] :: split separator s'
    else match split separator s' with
         | line :: lines => (c :: line) :: lines
         | [] => [[c]]
         end
  end.

Fixpoint join (separator : JSString) (parts : list JSString) : JSString :=
  match parts with
  | [] => []
  | [part] => part
  | part :: parts' => part ++ separator ++ join separator parts'
  end.

(** [String(n)] for an integer. *)
Definition showNumber (n : Z) : JSString :=
  lit (NilZero.string_of_int (Z.to_int n)).

(** ** [formatCommentsAsText] *)

(** The markers of the source file, as its text has them. *)
Definition chartMarker : JSString := [240; 376; 8220; 352]%N.
Definition rootMarker : JSString := [240; 376; 8217; 172]%N.
Definition replyMarker : JSString := [226; 8224; 179]%N.

Definition repeatString (s : JSString) (count : nat) : JSString :=
  concat (replicate count s).

(** The five replacements under [// Clean up HTML entities in text]. *)
Definition unescapeEntities (text : JSString) : JSString :=
  replace (literally (lit "&lt;")) [lessThan]
    (replace (literally (lit "&gt;")) [greaterThan]
       (replace (literally (lit "&quot;")) [quote]
          (replace (literally (lit "&#x27;")) (lit "'")
             (replace (literally (lit "&#x2F;")) (lit "/") text)))).

(** The three replacements that delete anchors and the other tags. *)
Definition stripTags (text : JSString) : JSString :=
  replace anyTag []
    (replace (literally (lit "</a>")) []
       (replace anchorOpen [] text)).

Definition collapseBlankLines (text : JSString) : JSString :=
  replace blankLines [newline; newline] text.

(** [cleanText]: the chain of nine [replace] calls on [comment.text || '']. *)
Definition cleanText (text : option JSString) : JSString :=
  collapseBlankLines
    (stripTags
       (unescapeEntities (match text with Some t => t | None => [] end))).

Definition indentOf (depth : nat) : JSString := repeatString (lit "  ") depth.

(** The first line of a block: marker, author and score. *)
Definition headLine (comment : Comment) (depth : nat) : JSString :=
  let depthIndicator :=
    match depth with
    | O => rootMarker
    | _ => repeatString replyMarker depth
    end in
  let scoreText :=
    match score comment with
    | Some (Zpos _ as points) | Some (Zneg _ as points) =>
      lit " (" ++ showNumber points ++ lit " points)"
    | _ => []
    end in
  let author :=
    match item_by (spread comment) with
    | Some name => name
    | None => lit "undefined"
    end in
  indentOf depth ++ depthIndicator ++ lit " **" ++ author ++ lit "**"
  ++ scoreText ++ [newline].

(** The body lines of a block. *)
Definition bodyLines (comment : Comment) (depth : nat) : JSString :=
  let indent := indentOf depth in
  indent ++ lit "   "
  ++ join ([newline] ++ indent ++ lit "   ")
       (split newline (cleanText (item_text (spread comment))))
  ++ [newline; newline].

Fixpoint formatComment (comment : Comment) (depth : nat) : JSString :=
  headLine comment depth ++ bodyLines comment depth
  ++ match replies comment with
     | Some rs => flat_map (fun reply => formatComment reply (S depth)) rs
     | None => []
     end.

(** The entities [cleanText] replaces. *)
Definition replacedEntities : list (list N) :=
  [lit "&#x2F;"; lit "&#x27;"; lit "&quot;"; lit "&gt;"; lit "&lt;"].

(** The comments [formatComment] renders below and with [comment], each with
    the [depth] argument of its own call. *)
Fixpoint renderedAt (depth : nat) (comment : Comment) : list (Comment * nat) :=
  (comment, depth)
  :: match replies comment with
     | Some rs => flat_map (renderedAt (S depth)) rs
     | None => []
     end.

Definition formatCommentsAsText (comments : list Comment)
    (storyTitle : JSString) (storyId totalComments : Z) : JSString :=
  let output :=
    lit "# Hacker News Comments for Story " ++ showNumber storyId ++ [newline]
    ++ lit "## " ++ [quote] ++ storyTitle ++ [quote] ++ [newline]
    ++ chartMarker ++ lit " Total Comments: " ++ showNumber totalComments
    ++ lit " | Showing: " ++ showNumber (Z.of_nat (length comments))
    ++ [newline; newline] in
  match comments with
  | [] => output ++ lit "No comments found matching the criteria." ++ [newline]
  | _ =>
    output ++ lit "---" ++ [newline; newline]
    ++ flat_map (fun comment =>
                   formatComment comment O ++ lit "---" ++ [newline; newline])
         comments
  end.

(** ** [getStoryComments] (the handler of [get_story_comments], [index.ts]) *)

(** [x || fallback] on an optional number. *)
Definition orElse (x : option Z) (fallback : Z) : Z :=
  match x with
  | Some 0 | None => fallback
  | Some v => v
  end.

(** [array.slice(0, finish)] *)
Definition sliceFromStart {A} (l : list A) (finish : Z) : list A :=
  if finish <? 0 then firstn (Z.to_nat (Z.of_nat (length l) + finish)) l
  else firstn (Z.to_nat finish) l.

(** [JSON.stringify({ story_id: storyId, comments: [] }, null, 2)] *)
Definition noCommentsJson (storyId : Z) : JSString :=
  lit "{" ++ [newline] ++ lit "  " ++ [quote] ++ lit "story_id" ++ [quote]
  ++ lit ": " ++ showNumber storyId ++ lit "," ++ [newline]
  ++ lit "  " ++ [quote] ++ lit "comments" ++ [quote] ++ lit ": []"
  ++ [newline] ++ lit "}".

(** The text of the result, [None] when the handler throws its [McpError],
    and the lookups below the story. *)
Definition getStoryComments (axiosInstance : ItemStore) (latency : Schedule)
    (story_id : Z) (min_score max_depth limit : option Z)
  : option JSString * list Batch :=
  let storyId := story_id in
  let minScore := orElse min_score 1 in
  let maxDepth := Z.min (orElse max_depth 3) 10 in
  let limitVal := Z.min (orElse limit 20) 100 in
  match fetchItem axiosInstance storyId with
  | Some story =>
    match item_kids story with
    | Some kids =>
      let log := fetchLog axiosInstance latency kids maxDepth minScore 0 in
      match fetchComments axiosInstance latency kids maxDepth minScore 0 with
      | Some comments =>
        let filteredComments := sliceFromStart comments limitVal in
        (Some (formatCommentsAsText filteredComments
                 (match item_title story with
                  | Some ((_ :: _) as title) => title
                  | _ => lit "Unknown Story"
                  end)
                 storyId (orElse (item_descendants story) 0)),
         log)
      | None => (None, log)
      end
    | None => (Some (noCommentsJson storyId), [])
    end
  | None => (Some (noCommentsJson storyId), [])
  end.

(** ** [Fetcher] ([fetcher.ts]) *)

(** [String.prototype.substring] on integers: both ends are clamped to
    [0, length] and exchanged if they come in the wrong order. *)
Definition substring (text : JSString) (start finish : Z) : JSString :=
  let len := Z.of_nat (length text) in
  let clamp (x : Z) := Z.min (Z.max x 0) len in
  let from := Z.min (clamp start) (clamp finish) in
  let to := Z.max (clamp start) (clamp finish) in
  firstn (Z.to_nat (to - from)) (skipn (Z.to_nat from) text).

Module Fetcher.

Definition applyLengthLimits (text : JSString) (maxLength startIndex : Z)
  : JSString :=
  if startIndex >=? Z.of_nat (length text) then []
  else
    let finish := Z.min (startIndex + maxLength) (Z.of_nat (length text)) in
    substring text startIndex finish.

Definition Headers := list (JSString * JSString).

Record RequestPayload := {
  url : JSString;
  headers : option Headers;
  max_length : option Z;
  start_index : option Z
}.

(** What the platform's [fetch] does with a request. *)
Inductive FetchOutcome :=
| Throws (message : JSString)
| Responds (ok : bool) (status : Z) (body : JSString).

Definition Request := (JSString * Headers)%type.
Definition Network := Request -> FetchOutcome.

Record ToolResult := { content : JSString; isError : bool }.

(** The conversions of a response body done by the platform and the
    packages ([JSON], [jsdom], [turndown] and the clean-up of their
    output), each giving a text or throwing an error with a message. *)
Record Engines := {
  stringifiedJson : JSString -> JSString + JSString;
  bodyText : JSString -> JSString + JSString;
  mainMarkdown : JSString -> JSString + JSString
}.

Definition userAgent : JSString :=
  lit "Mozilla/5.0 (Windows NT 10.0; Win64; x64) AppleWebKit/537.36 (KHTML, like Gecko) Chrome/120.0.0.0 Safari/537.36".

(** [{ 'User-Agent': ..., ...headers }] *)
Definition withDefaults (headers : option Headers) : Headers :=
  let given := match headers with Some hs => hs | None => [] end in
  match List.find (fun h => str_eqb (fst h) (lit "User-Agent")) given with
  | Some (_, agent) =>
    (lit "User-Agent", agent)
    :: List.filter (fun h => negb (str_eqb (fst h) (lit "User-Agent"))) given
  | None => (lit "User-Agent", userAgent) :: given
  end.

Section WithClassifier.
(** [is_ip_private] of the package [private-ip]: [true], [false] or
    [undefined]. *)
Variable is_ip_private : JSString -> option bool.
Variable network : Network.
Variable engines : Engines.

Definition failedToFetch (url message : JSString) : JSString :=
  lit "Failed to fetch " ++ url ++ lit ": " ++ message.

Definition blockedMessage (url : JSString) : JSString :=
  lit "Fetcher blocked an attempt to fetch a private IP " ++ url
  ++ lit ". This is to prevent a security vulnerability where a local MCP could fetch privileged local IPs and exfiltrate data.".

(** [_fetch]: the body of the response or the message of the error
    thrown, and the requests sent on the way. *)
Definition _fetch (payload : RequestPayload)
  : (JSString + JSString) * list Request :=
  match is_ip_private (url payload) with
  | Some true =>
    (inl (failedToFetch (url payload) (blockedMessage (url payload))), [])
  | _ =>
    let request := (url payload, withDefaults (headers payload)) in
    match network request with
    | Throws message =>
      (inl (failedToFetch (url payload) message), [request])
    | Responds ok status body =>
      if ok then (inr body, [request])
      else (inl (failedToFetch (url payload)
                   (lit "HTTP error: " ++ showNumber status)),
            [request])
    end
  end.

(** The shape the four entry points share: fetch, convert, cut to the
    window; any error becomes the text of an [isError] result. *)
Definition respond (convert : JSString -> JSString + JSString)
    (payload : RequestPayload) : ToolResult * list Request :=
  let limited (text : JSString) :=
    applyLengthLimits text
      (match max_length payload with Some n => n | None => 5000 end)
      (match start_index payload with Some n => n | None => 0 end) in
  match _fetch payload with
  | (inl message, sent) => ({| content := message; isError := true |}, sent)
  | (inr body, sent) =>
    match convert body with
    | inl message => ({| content := message; isError := true |}, sent)
    | inr text => ({| content := limited text; isError := false |}, sent)
    end
  end.

Definition html := respond inr.
Definition json := respond (stringifiedJson engines).
Definition txt := respond (bodyText engines).
Definition markdown := respond (mainMarkdown engines).
End WithClassifier.

End Fetcher.

(** Decimal digits and the octets of an address in dotted decimal form. *)
Definition isDigit (c : N) : bool := ((48 <=? c) && (c <=? 57))%N.

Definition octet (s : JSString) : option Z :=
  match s with
  | [] => None
  | _ =>
    if forallb isDigit s && (length s <=? 3)%nat then
      let value := fold_left (fun acc c => acc * 10 + (Z.of_N c - 48)) s 0 in
      if value <=? 255 then Some value else None
    else None
  end.

(** Modelled from the spec: the classifier of the package [private-ip], which
    is not among the sources.  For an IPv4 address in dotted decimal form it
    says whether the address lies in a private, loopback, link-local or other
    non-public range; for a string that is not an address it gives
    [undefined].  (The addresses of IPv6, which the package classifies too,
    are left out.) *)
Definition is_ip_private (ip : JSString) : option bool :=
  match map octet (split 46%N ip) with
  | [Some a; Some b; Some _; Some _] =>
    Some ((a =? 0) || (a =? 10) || (a =? 127)
          || (a =? 100) && (64 <=? b) && (b <=? 127)
          || (a =? 169) && (b =? 254)
          || (a =? 172) && (16 <=? b) && (b <=? 31)
          || (a =? 192) && (b =? 168)
          || (a =? 198) && (18 <=? b) && (b <=? 19)
          || (240 <=? a))
  | _ => None
  end.

(** ** Example requests and comments *)

Definition loopbackAdmin : Fetcher.RequestPayload :=
  {| Fetcher.url := lit "http://127.0.0.1/admin"; Fetcher.headers := None;
     Fetcher.max_length := None; Fetcher.start_index := None |}.

(** A host that answers every request with a page. *)
Definition adminPanel : Fetcher.Network := fun _ =>
  Fetcher.Responds true 200 (lit "<main>root password</main>").

Definition verbatim : Fetcher.Engines :=
  {| Fetcher.stringifiedJson := inr; Fetcher.bodyText := inr;
     Fetcher.mainMarkdown := inr |}.

Definition ampComment : Comment :=
  {| spread := {| item_id := 401; item_type := lit "comment";
                  item_by := Some (lit "ma");
                  item_time := TimeNumber 1175714200; item_score := None;
                  item_text := Some (lit "AT&amp;T"); item_title := None;
                  item_descendants := None; item_kids := None;
                  item_deleted := false; item_dead := false |};
     depth := 0; time := IsoOfMillis 1175714200000; replies := None |}.

(** ** Example stores *)

Definition aComment (id : Z) (points : option Z) (kids : option (list Z)) : Item :=
  {| item_id := id; item_type := lit "comment"; item_by := Some (lit "pg");
     item_time := TimeNumber 1175714200; item_score := points;
     item_text := Some (lit "fine"); item_title := None;
     item_descendants := None; item_kids := kids;
     item_deleted := false; item_dead := false |}.

Definition threadRoots : list Z := [101; 102; 103; 104; 105; 106; 107; 108].

(** A small thread under the story 100: three live root comments with
    scores 10, 5 and 20, a deleted one, a story, a lookup that fails, an id
    that does not exist and a dead comment; two levels of replies below the
    first root. *)
Definition threadStore : ItemStore := fun id =>
  if id =? 100 then
    Gives (Some {| item_id := 100; item_type := lit "story";
                   item_by := Some (lit "dhouston");
                   item_time := TimeNumber 1175714100; item_score := Some 111;
                   item_text := None;
                   item_title := Some (lit "My YC app: Dropbox");
                   item_descendants := Some 7;
                   item_kids := Some threadRoots;
                   item_deleted := false; item_dead := false |})
  else if id =? 101 then Gives (Some (aComment 101 (Some 10) (Some [201; 202; 203])))
  else if id =? 102 then Gives (Some (aComment 102 (Some 5) None))
  else if id =? 103 then Gives (Some (aComment 103 (Some 20) (Some [])))
  else if id =? 104 then
    Gives (Some {| item_id := 104; item_type := lit "comment"; item_by := None;
                   item_time := TimeNumber 1175714300; item_score := None;
                   item_text := None; item_title := None;
                   item_descendants := None; item_kids := None;
                   item_deleted := true; item_dead := false |})
  else if id =? 105 then
    Gives (Some {| item_id := 105; item_type := lit "story";
                   item_by := Some (lit "pg");
                   item_time := TimeNumber 1175714150; item_score := Some 3;
                   item_text := None; item_title := Some (lit "Ask");
                   item_descendants := Some 0; item_kids := None;
                   item_deleted := false; item_dead := false |})
  else if id =? 106 then Fails
  else if id =? 108 then
    Gives (Some {| item_id := 108; item_type := lit "comment";
                   item_by := Some (lit "troll");
                   item_time := TimeNumber 1175714400; item_score := Some 50;
                   item_text := Some (lit "spam"); item_title := None;
                   item_descendants := None; item_kids := None;
                   item_deleted := false; item_dead := true |})
  else if id =? 201 then Gives (Some (aComment 201 None (Some [301])))
  else if id =? 202 then Gives (Some (aComment 202 (Some 7) None))
  else if id =? 203 then Gives (Some (aComment 203 None None))
  else if id =? 301 then Gives (Some (aComment 301 (Some 3) None))
  else Gives None.

Definition leaf (comment : Item) (d : Z) : Comment :=
  {| spread := comment; depth := d; time := IsoOfMillis 1175714200000;
     replies := None |}.

(** The tree of that thread for [maxDepth = 3]. *)
Definition threadTree : list Comment :=
  [ leaf (aComment 103 (Some 20) (Some [])) 0;
    {| spread := aComment 101 (Some 10) (Some [201; 202; 203]);
       depth := 0; time := IsoOfMillis 1175714200000;
       replies :=
         Some [ leaf (aComment 202 (Some 7) None) 1;
                {| spread := aComment 201 None (Some [301]);
                   depth := 1; time := IsoOfMillis 1175714200000;
                   replies := Some [leaf (aComment 301 (Some 3) None) 2] |};
                leaf (aComment 203 None None) 1 ] |};
    leaf (aComment 102 (Some 5) None) 0 ].

(** A store in which every id is a live comment with twelve children. *)
Definition wideStore : ItemStore := fun id =>
  Gives (Some (aComment id (Some id)
                    (Some (map (fun k => id * 100 + Z.of_nat k) (seq 1 12))))).

Definition elevenIds : list Z := [1; 2; 3; 4; 5; 6; 7; 8; 9; 10; 11].

(** Two schedules: every lookup takes the same time; later ids answer first. *)
Definition inOrder : Schedule := fun _ _ _ => O.
Definition lastFirst : Schedule := fun _ i _ => (1000 - i)%nat.

(** ** Measures of a build *)

(** The score an ordering sees, read off the item. *)
Definition itemRank (comment : Item) : Z := orZero (item_score comment).

(** The number of calls of [fetchItem] a log stands for. *)
Definition lookups (log : list Batch) : nat :=
  fold_right (fun b total => (length (snd b) + total)%nat) O log.

(** The lookups one candidate can cause over [levels] levels when every
    comment expands ten children: 1 + 10 + 100 + ... *)
Fixpoint reach (levels : nat) : nat :=
  match levels with
  | O => O
  | S levels' => S (10 * reach levels')
  end.

(** A store like [wideStore] in which the comment 7 carries a time beyond the
    range of [Date]. *)
Definition brokenClock : ItemStore := fun id =>
  if id =? 7 then
    Gives (Some {| item_id := 7; item_type := lit "comment";
                   item_by := Some (lit "pg");
                   item_time := TimeNumber 9000000000000000;
                   item_score := Some 7; item_text := Some (lit "fine");
                   item_title := None; item_descendants := None;
                   item_kids := None;
                   item_deleted := false; item_dead := false |})
  else wideStore id.

(** One block of the report: the head line and the body of one comment. *)
Definition blockOf (p : Comment * nat) : list N :=
  headLine (fst p) (snd p) ++ bodyLines (fst p) (snd p).

(** ** The plain text of a page ([Fetcher.txt])

    [text.replace(/\s+/g, ' ').trim()], applied to the text content of the
    body before the window is cut. *)

(** The extent of the white space at the head of [s]. *)
Fixpoint spaceRun (s : JSString) : nat :=
  match s with
  | c :: s' => if isSpace c then S (spaceRun s') else O
  | [] => O
  end.

(** [/\s+/] *)
Definition whiteSpace : Pattern := fun s =>
  match spaceRun s with
  | O => None
  | n => Some n
  end.

(** [String.prototype.trim]: the white space of [\s] is taken off both
    ends. *)
Fixpoint trimStart (s : JSString) : JSString :=
  match s with
  | c :: s' => if isSpace c then trimStart s' else s
  | [] => []
  end.

Fixpoint trimEnd (s : JSString) : JSString :=
  match s with
  | [] => []
  | c :: s' =>
    match trimEnd s' with
    | [] => if isSpace c then [] else [c]
    | rest => c :: rest
    end
  end.

Definition trim (s : JSString) : JSString := trimEnd (trimStart s).

Definition normalizedText (text : JSString) : JSString :=
  trim (replace whiteSpace (lit " ") text).

(** Two white space characters side by side. *)
Definition twoSpaces : Pattern := fun s =>
  match s with
  | a :: b :: _ => if isSpace a && isSpace b then Some 2%nat else None
  | _ => None
  end.

(** The text is empty or begins with a character that is not white space. *)
Definition startsPlain (s : list N) : Prop :=
  match s with
  | c :: _ => isSpace c = false
  | [] => True
  end.

(** * Properties *)

(** ** Sorting *)

Lemma sort_insert_perm_any {A} (cmp : A -> A -> Z) x l :
  Permutation (sort_insert cmp x l) (x :: l).
Proof.
  induction l as [|y l IH]; simpl; [reflexivity|].
  destruct (cmp x y <=? 0); [reflexivity|].
  rewrite IH. apply perm_swap.
Qed.

Lemma Array_sort_perm_any {A} (cmp : A -> A -> Z) l :
  Permutation (Array_sort cmp l) l.
Proof.
  induction l as [|x l IH]; simpl; [reflexivity|].
  rewrite sort_insert_perm_any. now constructor.
Qed.

Section Sorting.
Context {A : Type} (key : A -> Z).

Lemma sort_insert_split x l :
  exists l1 l2,
    sort_insert (descBy key) x l = l1 ++ x :: l2 /\ l = l1 ++ l2 /\
    Forall (fun y => key x < key y) l1.
Proof.
  induction l as [|y l IH]; simpl.
  - exists [], []. repeat split; constructor.
  - unfold descBy at 1. destruct (Z.leb_spec (key y - key x) 0) as [Hle|Hgt].
    + exists [], (y :: l). repeat split; constructor.
    + destruct IH as (l1 & l2 & E1 & E2 & HF).
      exists (y :: l1), l2. rewrite E1, E2. repeat split.
      constructor; [lia | exact HF].
Qed.

Lemma sort_insert_sorted x l :
  nonIncreasing key l -> nonIncreasing key (sort_insert (descBy key) x l).
Proof.
  unfold nonIncreasing. induction 1 as [|y l Hs IH Hy]; simpl.
  - repeat constructor.
  - unfold descBy at 1. destruct (Z.leb_spec (key y - key x) 0) as [Hle|Hgt].
    + constructor; [now constructor|].
      constructor; [lia|].
      eapply Forall_impl; [exact Hy|]. simpl. intros; lia.
    + constructor; [exact IH|].
      eapply Permutation_Forall; [symmetry; apply sort_insert_perm_any|].
      constructor; [lia | exact Hy].
Qed.

Lemma Array_sort_sorted l : nonIncreasing key (Array_sort (descBy key) l).
Proof.
  induction l as [|x l IH]; simpl; [constructor|].
  now apply sort_insert_sorted.
Qed.

(** Stability: elements of one key keep their relative order. *)
Lemma Array_sort_stable v l :
  filter (fun a => key a = v) (Array_sort (descBy key) l)
  = filter (fun a => key a = v) l.
Proof.
  induction l as [|x l IH]; simpl; [reflexivity|].
  destruct (sort_insert_split x (Array_sort (descBy key) l))
    as (l1 & l2 & E1 & E2 & HF).
  rewrite E1, filter_app, !filter_cons, <- IH, E2, filter_app.
  destruct (decide (key x = v)) as [Hx|Hx]; [|reflexivity].
  assert (Hnil : filter (fun a => key a = v) l1 = []).
  { clear -HF Hx. induction HF as [|y l1 Hy HF IH]; [reflexivity|].
    rewrite filter_cons, IH. destruct (decide (key y = v)); [lia|reflexivity]. }
  rewrite Hnil. reflexivity.
Qed.

Lemma sort_insert_head x l :
  Forall (fun y => key y <= key x) l -> sort_insert (descBy key) x l = x :: l.
Proof.
  destruct 1 as [|y l Hy _]; simpl; [reflexivity|].
  unfold descBy. destruct (Z.leb_spec (key y - key x) 0); [reflexivity|lia].
Qed.

(** Sorting a sorted array leaves it as it is. *)
Lemma Array_sort_id l : nonIncreasing key l -> Array_sort (descBy key) l = l.
Proof.
  induction 1 as [|x l Hs IH Hx]; simpl; [reflexivity|].
  rewrite IH. now apply sort_insert_head.
Qed.
End Sorting.

Lemma byScoreDesc_descBy : byScoreDesc = descBy rank.
Proof. reflexivity. Qed.

(** ** [Promise.all] fills the slots by position *)

Lemma settle_rejected_state {A} (promises : list (option A)) order :
  fold_left (settle promises) order None = None.
Proof. induction order as [|i order IH]; simpl; [reflexivity|exact IH]. Qed.

Lemma settle_rejected {A} (promises : list (option A)) j order : forall state,
  j ∈ order -> promises !! j = Some None ->
  fold_left (settle promises) order state = None.
Proof.
  induction order as [|i order IH]; intros state Hin Hj; [inversion Hin|].
  simpl. apply elem_of_cons in Hin as [<-|Hin].
  - destruct state as [slots|]; simpl; rewrite ?Hj; apply settle_rejected_state.
  - now apply IH.
Qed.

Lemma settle_fulfilled {A} (values : list A) order : forall slots,
  length slots = length values ->
  exists slots',
    fold_left (settle (Some <$> values)) order (Some slots) = Some slots' /\
    length slots' = length values /\
    forall i, slots' !! i
              = if decide (i ∈ order) then Some <$> values !! i else slots !! i.
Proof.
  induction order as [|j order IH]; intros slots Hlen; simpl.
  - exists slots. split; [reflexivity|]. split; [exact Hlen|]. intros i.
    destruct (decide (i ∈ [])) as [Hin|_]; [inversion Hin|reflexivity].
  - rewrite list_lookup_fmap.
    destruct (values !! j) as [v|] eqn:Hv; simpl.
    + destruct (IH (<[j := Some v]> slots)) as (slots' & Hfold & Hlen' & Hlook);
        [now rewrite length_insert|].
      exists slots'. split; [exact Hfold|]. split; [exact Hlen'|]. intros i.
      rewrite Hlook. destruct (decide (i ∈ order)) as [Hin|Hnin].
      * rewrite decide_True by (now right). reflexivity.
      * destruct (decide (i = j)) as [->|Hne].
        -- rewrite decide_True by (now left). rewrite Hv.
           apply list_lookup_insert_eq. rewrite Hlen.
           eapply lookup_lt_Some; exact Hv.
        -- rewrite decide_False by (rewrite elem_of_cons; tauto).
           now apply list_lookup_insert_ne.
    + destruct (IH slots Hlen) as (slots' & Hfold & Hlen' & Hlook).
      exists slots'. split; [exact Hfold|]. split; [exact Hlen'|]. intros i.
      rewrite Hlook. destruct (decide (i ∈ order)) as [Hin|Hnin].
      * rewrite decide_True by (now right). reflexivity.
      * destruct (decide (i = j)) as [->|Hne].
        -- rewrite decide_True by (now left). rewrite Hv.
           apply lookup_ge_None. rewrite Hlen. now apply lookup_ge_None.
        -- rewrite decide_False by (rewrite elem_of_cons; tauto). reflexivity.
Qed.

Lemma settled_Some {A} (values : list A) : settled (Some <$> values) = values.
Proof. induction values as [|v values IH]; csimpl; [reflexivity|now rewrite IH]. Qed.

Lemma allFulfilled_Some {A} (promises : list (option A)) values :
  allFulfilled promises = Some values <-> promises = Some <$> values.
Proof.
  revert values. induction promises as [|[v|] promises IH]; intros values; simpl.
  - split; [intros [= <-]; reflexivity|]. destruct values; [reflexivity|discriminate].
  - destruct (allFulfilled promises) as [vs|] eqn:Hvs; simpl.
    + split.
      * intros [= <-]. csimpl. f_equal. now apply IH.
      * destruct values as [|w ws]; csimpl; [discriminate|]. intros [= -> Hws].
        apply IH in Hws. congruence.
    + split; [discriminate|].
      destruct values as [|w ws]; csimpl; [discriminate|]. intros [= -> Hws].
      apply IH in Hws. discriminate.
  - split; [discriminate|]. destruct values; csimpl; discriminate.
Qed.

Lemma allFulfilled_None {A} (promises : list (option A)) :
  allFulfilled promises = None -> exists j, promises !! j = Some None.
Proof.
  induction promises as [|[v|] promises IH]; simpl; [discriminate| |].
  - destruct (allFulfilled promises); [discriminate|]. intros _.
    destruct (IH eq_refl) as [j Hj]. now exists (S j).
  - intros _. now exists O.
Qed.

(** Whatever the order in which the promises settle, as long as each of them
    does: if one is rejected so is [Promise.all], and otherwise it is
    fulfilled with their values in the order of the promises. *)
Lemma Promise_all_positional {A} (order : list nat) (promises : list (option A)) :
  (forall i, (i < length promises)%nat -> i ∈ order) ->
  Promise_all order promises = allFulfilled promises.
Proof.
  intros Hall. unfold Promise_all.
  destruct (allFulfilled promises) as [values|] eqn:Hvalues.
  - apply allFulfilled_Some in Hvalues. subst promises.
    rewrite length_fmap in *.
    destruct (settle_fulfilled values order (replicate (length values) None))
      as (slots & -> & Hlen & Hlook); [apply length_replicate|].
    simpl. f_equal. replace slots with (Some <$> values); [apply settled_Some|].
    apply list_eq. intros i. rewrite Hlook, list_lookup_fmap.
    destruct (decide (i ∈ order)) as [_|Hnin]; [reflexivity|].
    destruct (values !! i) as [v|] eqn:Hv; simpl.
    + exfalso. apply Hnin, Hall. eapply lookup_lt_Some; exact Hv.
    + symmetry. apply lookup_ge_None. rewrite length_replicate.
      now apply lookup_ge_None.
  - apply allFulfilled_None in Hvalues as [j Hj].
    rewrite (settle_rejected promises j); [reflexivity| |exact Hj].
    apply Hall. eapply lookup_lt_Some; exact Hj.
Qed.

Lemma settleOrder_perm latency d ids :
  Permutation (settleOrder latency d ids) (seq 0 (length ids)).
Proof.
  unfold settleOrder. rewrite Array_sort_perm_any.
  change (map fst ?l) with (fst <$> l).
  rewrite fmap_imap.
  rewrite (imap_ext _ (fun i _ => i)) by reflexivity.
  rewrite (imap_seq_0 ids (fun i => i)).
  now rewrite list_fmap_id.
Qed.

Lemma Promise_all_settleOrder {A} latency d ids (promises : list (option A)) :
  length promises = length ids ->
  Promise_all (settleOrder latency d ids) promises = allFulfilled promises.
Proof.
  intros Hlen. apply Promise_all_positional. intros i Hi.
  rewrite (settleOrder_perm latency d ids). apply elem_of_seq. lia.
Qed.

(** ** The equation of [fetchComments] *)

Lemma levelsLeft_S maxDepth currentDepth :
  currentDepth < maxDepth ->
  levelsLeft maxDepth currentDepth = S (levelsLeft maxDepth (currentDepth + 1)).
Proof. unfold levelsLeft. intros H. rewrite <- Z2Nat.inj_succ by lia. f_equal. lia. Qed.

Lemma fetchComments_guard store lat ids D m d :
  D <= d \/ ids = [] -> fetchComments store lat ids D m d = Some [].
Proof.
  intros H. unfold fetchComments.
  destruct (levelsLeft D d) as [|n]; [reflexivity|]. simpl.
  destruct H as [H| ->].
  - replace (d >=? D) with true by (symmetry; apply Z.geb_le; lia). reflexivity.
  - rewrite orb_true_r. reflexivity.
Qed.

Lemma fetchComments_eq store lat ids D m d :
  d < D ->
  fetchComments store lat ids D m d
  = levelResult (map (nodeOf store lat D m d) ids).
Proof.
  intros Hd. destruct ids as [|i ids]; [now rewrite fetchComments_guard by (now right)|].
  unfold fetchComments at 1.
  rewrite (levelsLeft_S D d Hd). cbn [fetchComments_fuel].
  replace (d >=? D) with false by (symmetry; rewrite Z.geb_leb; apply Z.leb_gt; lia).
  cbn [length Nat.eqb orb fst].
  rewrite map_map.
  rewrite Promise_all_settleOrder by (now rewrite length_map).
  unfold levelResult.
  match goal with
  | |- match allFulfilled ?l with _ => _ end = option_map _ (allFulfilled ?l') =>
    replace l with l'; [destruct (allFulfilled l'); reflexivity|]
  end.
  apply map_ext. intros id. unfold nodeOf, fetchComments.
  destruct (fetchItem store id) as [c|]; [|reflexivity].
  destruct (keeps c); [|reflexivity].
  destruct (normalizeTime (item_time c)); [|reflexivity].
  destruct (hasKids c && (d <? D - 1)); [|reflexivity].
  destruct (fetchComments_fuel _ _ _ _ _ _ _) as [[cs|] log]; reflexivity.
Qed.

Lemma levelResult_Some promises tree :
  levelResult promises = Some tree ->
  exists comments,
    promises = Some <$> comments /\
    tree = Array_sort byScoreDesc (filterBoolean comments).
Proof.
  unfold levelResult. destruct (allFulfilled promises) as [comments|] eqn:H;
    [|discriminate].
  intros [= <-]. exists comments. split; [now apply allFulfilled_Some|reflexivity].
Qed.

Lemma filterBoolean_In {A} (l : list (option A)) x :
  In x (filterBoolean l) <-> In (Some x) l.
Proof.
  induction l as [|[y|] l IH]; simpl; [tauto| |].
  - rewrite IH. split; (intros [H|H]; [left; congruence|now right]).
  - rewrite IH. split; [now right|]. intros [H|H]; [discriminate|exact H].
Qed.

Lemma Array_sort_In {A} (cmp : A -> A -> Z) l x :
  In x (Array_sort cmp l) <-> In x l.
Proof.
  split; apply Permutation_in;
    [apply Array_sort_perm_any | symmetry; apply Array_sort_perm_any].
Qed.

(** The roots a call returns are the comments its callbacks gave. *)
Lemma fetchComments_roots store lat D m d ids tree c :
  fetchComments store lat ids D m d = Some tree -> In c tree ->
  d < D /\ exists id, In id ids /\ nodeOf store lat D m d id = Some (Some c).
Proof.
  intros Htree Hc. destruct (Z_lt_le_dec d D) as [Hd|Hd].
  - split; [exact Hd|]. rewrite fetchComments_eq in Htree by exact Hd.
    apply levelResult_Some in Htree as (comments & Hcs & ->).
    apply Array_sort_In, filterBoolean_In in Hc.
    assert (Hin : In (Some (Some c)) (map (nodeOf store lat D m d) ids)).
    { rewrite Hcs. change (Some (Some c)) with (Some (A := option Comment) (Some c)).
      apply in_map. exact Hc. }
    apply in_map_iff in Hin as (id & H1 & H2). now exists id.
  - rewrite fetchComments_guard in Htree by (now left).
    injection Htree as <-. destruct Hc.
Qed.

Lemma fetchComments_sorted_roots store lat ids D m d tree :
  fetchComments store lat ids D m d = Some tree -> nonIncreasing rank tree.
Proof.
  intros Htree. destruct (Z_lt_le_dec d D) as [Hd|Hd].
  - rewrite fetchComments_eq in Htree by exact Hd.
    apply levelResult_Some in Htree as (comments & _ & ->).
    apply (Array_sort_sorted rank).
  - rewrite fetchComments_guard in Htree by (now left).
    injection Htree as <-. constructor.
Qed.

(** The node a callback gives: the item as fetched, the depth of the call,
    and for [replies] either nothing or what the build of the first ten
    [kids] returned one level down (its second sort changes nothing). *)
Lemma nodeOf_Some store lat D m d id c :
  nodeOf store lat D m d id = Some (Some c) ->
  fetchItem store id = Some (spread c) /\ keeps (spread c) = true /\
  depth c = d /\ normalizeTime (item_time (spread c)) = Some (time c) /\
  (hasKids (spread c) && (d <? D - 1) = false /\ replies c = None \/
   hasKids (spread c) && (d <? D - 1) = true /\
   exists rs, fetchComments store lat (firstn 10 (kidsOf (spread c))) D m (d + 1)
              = Some rs /\ replies c = Some rs).
Proof.
  unfold nodeOf. destruct (fetchItem store id) as [comment|]; [|discriminate].
  destruct (keeps comment) eqn:Hk; [|discriminate].
  destruct (normalizeTime (item_time comment)) as [t|] eqn:Ht; [|discriminate].
  destruct (hasKids comment && (d <? D - 1)) eqn:Hc.
  - destruct (fetchComments _ _ _ _ _ _) as [cs|] eqn:Hcs; [|discriminate].
    intros [= <-]. simpl. rewrite Hc. repeat split; try assumption.
    right. split; [reflexivity|]. exists cs. split; [exact Hcs|].
    rewrite (Array_sort_id rank); [reflexivity|].
    eapply fetchComments_sorted_roots; exact Hcs.
  - intros [= <-]. simpl. rewrite Hc. repeat split; try assumption. now left.
Qed.

Lemma treeNodes_In tree c :
  In c (treeNodes tree) <-> exists r, In r tree /\ In c (nodes r).
Proof. unfold treeNodes. apply in_flat_map. Qed.

Lemma nodes_unfold c : nodes c = c :: treeNodes (repliesOf c).
Proof. destruct c as [s d t [rs|]]; reflexivity. Qed.

(** Induction over the levels of a build. *)
Lemma fetchComments_ind store lat D m (P : Z -> list Z -> list Comment -> Prop) :
  (forall d ids, D <= d -> P d ids []) ->
  (forall d ids tree, d < D ->
     fetchComments store lat ids D m d = Some tree ->
     (forall ids' tree', fetchComments store lat ids' D m (d + 1) = Some tree' ->
                         P (d + 1) ids' tree') ->
     P d ids tree) ->
  forall d ids tree, fetchComments store lat ids D m d = Some tree -> P d ids tree.
Proof.
  intros Hguard Hstep d.
  remember (levelsLeft D d) as n eqn:Hn. revert d Hn.
  induction n as [|n IH]; intros d Hn ids tree Htree.
  - assert (Hd : D <= d) by (unfold levelsLeft in Hn; lia).
    rewrite fetchComments_guard in Htree by (now left).
    injection Htree as <-. now apply Hguard.
  - assert (Hd : d < D) by (unfold levelsLeft in Hn; lia).
    apply Hstep; [exact Hd|exact Htree|]. intros ids' tree'. apply IH.
    rewrite (levelsLeft_S D d Hd) in Hn. congruence.
Qed.

(** A property of every node of every returned tree: it is enough that it
    passes from the subtrees of a node to the node. *)
Lemma fetchComments_nodes_ind store lat D m (Q : Comment -> Prop) :
  (forall d id c, d < D -> nodeOf store lat D m d id = Some (Some c) ->
     Forall Q (treeNodes (repliesOf c)) -> Q c) ->
  forall d ids tree, fetchComments store lat ids D m d = Some tree ->
                     Forall Q (treeNodes tree).
Proof.
  intros Hnode.
  apply (fetchComments_ind store lat D m (fun _ _ tree => Forall Q (treeNodes tree))).
  - intros; constructor.
  - intros d ids tree Hd Htree IH. apply List.Forall_forall. intros c Hc.
    apply treeNodes_In in Hc as (r & Hr & Hc).
    destruct (fetchComments_roots _ _ _ _ _ _ _ _ Htree Hr) as (_ & id & _ & Hnode_r).
    assert (Hsub : Forall Q (treeNodes (repliesOf r))).
    { destruct (nodeOf_Some _ _ _ _ _ _ _ Hnode_r)
        as (_ & _ & _ & _ & [[_ Hrep]|(_ & rs & Hrs & Hrep)]);
        unfold repliesOf; rewrite Hrep; [constructor|].
      eapply IH; exact Hrs. }
    rewrite nodes_unfold in Hc. destruct Hc as [<-|Hc].
    + eapply Hnode; eassumption.
    + rewrite List.Forall_forall in Hsub. now apply Hsub.
Qed.

(** ** Depth *)

Lemma fetchComments_root_depth store lat ids D m d tree :
  fetchComments store lat ids D m d = Some tree ->
  Forall (fun c => depth c = d) tree.
Proof.
  intros Htree. apply List.Forall_forall. intros c Hc.
  destruct (fetchComments_roots _ _ _ _ _ _ _ _ Htree Hc) as (_ & id & _ & Hnode).
  apply nodeOf_Some in Hnode. tauto.
Qed.

Lemma fetchComments_depth_range store lat D m d ids tree :
  fetchComments store lat ids D m d = Some tree ->
  Forall (fun c => d <= depth c <= D - 1) (treeNodes tree).
Proof.
  revert d ids tree.
  apply (fetchComments_ind store lat D m
           (fun d _ tree => Forall (fun c => d <= depth c <= D - 1) (treeNodes tree))).
  - intros; constructor.
  - intros d ids tree Hd Htree IH. apply List.Forall_forall. intros c Hc.
    apply treeNodes_In in Hc as (r & Hr & Hc).
    destruct (fetchComments_roots _ _ _ _ _ _ _ _ Htree Hr) as (_ & id & _ & Hnode).
    apply nodeOf_Some in Hnode
      as (_ & _ & Hdep & _ & [[_ Hrep]|(_ & rs & Hrs & Hrep)]);
      rewrite nodes_unfold in Hc; unfold repliesOf in Hc; rewrite Hrep in Hc;
      destruct Hc as [<-|Hc]; try lia; try (destruct Hc).
    specialize (IH _ _ Hrs). rewrite List.Forall_forall in IH.
    specialize (IH c Hc). lia.
Qed.

Lemma fetchComments_child_depth store lat D m d ids tree :
  fetchComments store lat ids D m d = Some tree ->
  Forall (fun p => Forall (fun c => depth c = depth p + 1) (repliesOf p))
         (treeNodes tree).
Proof.
  apply fetchComments_nodes_ind. clear d ids tree. intros d id c Hd Hnode _.
  apply nodeOf_Some in Hnode
    as (_ & _ & Hdep & _ & [[_ Hrep]|(_ & rs & Hrs & Hrep)]);
    unfold repliesOf; rewrite Hrep; [constructor|].
  rewrite Hdep. eapply fetchComments_root_depth; exact Hrs.
Qed.

(** C4.  In a tree built with [maxDepth = D >= 1] from depth 0, every node's
    [depth] lies in [0, D-1], every root has depth 0, and every reply has the
    depth of its parent plus one. *)
Theorem fetchComments_depth store lat ids D m tree :
  1 <= D ->
  fetchComments store lat ids D m 0 = Some tree ->
  Forall (fun c => 0 <= depth c <= D - 1) (treeNodes tree) /\
  Forall (fun c => depth c = 0) tree /\
  Forall (fun p => Forall (fun c => depth c = depth p + 1) (repliesOf p))
         (treeNodes tree).
Proof.
  intros _ Htree. split; [|split].
  - eapply fetchComments_depth_range; exact Htree.
  - eapply fetchComments_root_depth; exact Htree.
  - eapply fetchComments_child_depth; exact Htree.
Qed.

(** ** Order *)

(** C5.  Every sibling sequence of a returned tree, the root array and every
    [replies] array, is in non-increasing order of score, a missing score
    counting as 0. *)
Theorem fetchComments_sorted store lat ids D m d tree :
  fetchComments store lat ids D m d = Some tree ->
  Forall (nonIncreasing rank) (siblingSequences tree).
Proof.
  intros Htree. unfold siblingSequences.
  constructor; [eapply fetchComments_sorted_roots; exact Htree|].
  apply List.Forall_forall. intros rs Hrs.
  apply in_flat_map in Hrs as (c & Hc & Hrs).
  assert (HQ : Forall (fun c => match replies c with
                                | Some rs => nonIncreasing rank rs
                                | None => True
                                end) (treeNodes tree)).
  { eapply fetchComments_nodes_ind; [|exact Htree]. intros d' id c' _ Hnode _.
    apply nodeOf_Some in Hnode
      as (_ & _ & _ & _ & [[_ ->]|(_ & rs' & Hrs' & ->)]); [exact I|].
    eapply fetchComments_sorted_roots; exact Hrs'. }
  rewrite List.Forall_forall in HQ. specialize (HQ c Hc).
  destruct (replies c) as [rs'|]; [|destruct Hrs].
  destruct Hrs as [<-|[]]. exact HQ.
Qed.

(** ** Pruning *)

Lemma keeps_true comment :
  keeps comment = true <->
  item_type comment = lit "comment" /\ item_deleted comment = false /\
  item_dead comment = false.
Proof.
  unfold keeps, str_eqb. rewrite !andb_true_iff, !negb_true_iff.
  rewrite bool_decide_eq_true. tauto.
Qed.

Lemma nodeOf_unusable store lat D m d id :
  usable store id = false -> nodeOf store lat D m d id = Some None.
Proof.
  unfold usable, nodeOf. destruct (fetchItem store id) as [comment|]; [|reflexivity].
  now intros ->.
Qed.

Lemma level_spread store lat D m d ids comments :
  map (nodeOf store lat D m d) ids = Some <$> comments ->
  map spread (filterBoolean comments)
  = List.filter keeps (filterBoolean (map (fetchItem store) ids)).
Proof.
  revert comments. induction ids as [|id ids IH]; intros [|c comments]; csimpl;
    try discriminate; [reflexivity|].
  intros [= Hnode Hrest]. specialize (IH _ Hrest).
  destruct c as [c|].
  - apply nodeOf_Some in Hnode as (Hf & Hk & _). rewrite Hf. simpl.
    rewrite Hk. now rewrite IH.
  - unfold nodeOf in Hnode. destruct (fetchItem store id) as [comment|]; [|exact IH].
    simpl. destruct (keeps comment); [|exact IH].
    destruct (normalizeTime _); [|discriminate].
    destruct (hasKids comment && _); [|discriminate].
    destruct (fetchComments _ _ _ _ _ _); discriminate.
Qed.

Lemma levelResult_drop_null before after :
  levelResult (before ++ Some None :: after) = levelResult (before ++ after).
Proof.
  unfold levelResult. induction before as [|[c|] before IH]; simpl.
  - destruct (allFulfilled after); reflexivity.
  - destruct (allFulfilled (before ++ Some None :: after)) as [l|],
             (allFulfilled (before ++ after)) as [l'|];
      simpl in *; try discriminate; [|reflexivity].
    injection IH as IH. destruct c as [c|]; simpl; [|now rewrite IH].
    f_equal. cbn [filterBoolean Array_sort fold_right].
    change (fold_right (sort_insert byScoreDesc) []) with (Array_sort byScoreDesc).
    now rewrite IH.
  - reflexivity.
Qed.

(** C6.  No node of a returned tree is deleted, dead or of a type other than
    comment, and each is an item a lookup gave; there is exactly one root per
    candidate whose lookup gave such an item and nothing stands for the
    others; a candidate whose lookup fails, finds nothing or finds an item of
    another kind raises no error and leaves the result what it is without
    it. *)
Theorem fetchComments_prunes store lat ids D m d :
  (forall tree, fetchComments store lat ids D m d = Some tree ->
     Forall (fun c => item_type (spread c) = lit "comment" /\
                      item_deleted (spread c) = false /\
                      item_dead (spread c) = false /\
                      exists id, fetchItem store id = Some (spread c))
            (treeNodes tree) /\
     (d < D ->
      Permutation (map spread tree)
        (List.filter keeps (filterBoolean (map (fetchItem store) ids))))) /\
  (forall before bad after,
     usable store bad = false ->
     fetchComments store lat (before ++ bad :: after) D m d
     = fetchComments store lat (before ++ after) D m d) /\
  (Forall (fun id => usable store id = false) ids ->
   fetchComments store lat ids D m d = Some []).
Proof.
  split; [|split].
  - intros tree Htree. split.
    + eapply fetchComments_nodes_ind; [|exact Htree]. intros d' id c _ Hnode _.
      apply nodeOf_Some in Hnode as (Hf & Hk & _).
      apply keeps_true in Hk. repeat split; try tauto. now exists id.
    + intros Hd. rewrite fetchComments_eq in Htree by exact Hd.
      apply levelResult_Some in Htree as (comments & Hcs & ->).
      rewrite <- (level_spread store lat D m d ids comments Hcs).
      apply Permutation_map, Array_sort_perm_any.
  - intros before bad after Hbad.
    destruct (Z_lt_le_dec d D) as [Hd|Hd].
    + rewrite !fetchComments_eq by exact Hd.
      rewrite !map_app. simpl. rewrite (nodeOf_unusable _ _ _ _ _ _ Hbad).
      apply levelResult_drop_null.
    + now rewrite !fetchComments_guard by (now left).
  - intros Hall. destruct (Z_lt_le_dec d D) as [Hd|Hd].
    + rewrite fetchComments_eq by exact Hd. unfold levelResult.
      induction Hall as [|id ids Hid Hall IH]; [reflexivity|]. simpl.
      rewrite (nodeOf_unusable _ _ _ _ _ _ Hid).
      destruct (allFulfilled _) as [l|]; [|discriminate].
      simpl in *. exact IH.
    + now rewrite fetchComments_guard by (now left).
Qed.

(** ** The [replies] field *)

Lemma fetchComments_replies_iff store lat D m d ids tree :
  fetchComments store lat ids D m d = Some tree ->
  Forall (fun c => is_Some (replies c) <->
                   (exists k ks, item_kids (spread c) = Some (k :: ks)) /\
                   depth c < D - 1)
         (treeNodes tree).
Proof.
  apply fetchComments_nodes_ind. clear d ids tree. intros d id c _ Hnode _.
  apply nodeOf_Some in Hnode
    as (_ & _ & -> & _ & [[Hc ->]|(Hc & rs & _ & ->)]);
    unfold hasKids in Hc; destruct (item_kids (spread c)) as [[|k ks]|];
    simpl in Hc; try discriminate.
  - split; [intros [? [=]]|intros [(? & ? & [=]) _]].
  - apply Z.ltb_ge in Hc. split; [intros [? [=]]|intros [_ ?]; lia].
  - split; [intros [? [=]]|intros [(? & ? & [=]) _]].
  - apply Z.ltb_lt in Hc. split; [|now eexists].
    intros _. split; [now exists k, ks|exact Hc].
Qed.

(** C10.  A node carries a [replies] field exactly when the fetched item has
    a non-empty [kids] list and the node's depth is below [maxDepth - 1];
    otherwise the field is absent, not empty.  With [maxDepth = 1] no node
    has the field. *)
Theorem fetchComments_replies store lat ids D m d :
  (forall tree, fetchComments store lat ids D m d = Some tree ->
     Forall (fun c => is_Some (replies c) <->
                      (exists k ks, item_kids (spread c) = Some (k :: ks)) /\
                      depth c < D - 1)
            (treeNodes tree)) /\
  (forall tree, fetchComments store lat ids 1 m 0 = Some tree ->
     Forall (fun c => replies c = None) (treeNodes tree)).
Proof.
  split; [intros tree; apply fetchComments_replies_iff|].
  intros tree Htree.
  pose proof (fetchComments_replies_iff _ _ _ _ _ _ _ Htree) as H1.
  pose proof (fetchComments_depth_range _ _ _ _ _ _ _ Htree) as H2.
  rewrite List.Forall_forall in *. intros c Hc.
  specialize (H1 c Hc). specialize (H2 c Hc).
  destruct (replies c) as [rs|] eqn:Hr; [|reflexivity].
  assert (Hs : is_Some (Some rs)) by now eexists.
  apply H1 in Hs. lia.
Qed.

(** ** Fan-out *)

Lemma fetchLog_guard store lat ids D m d :
  D <= d \/ ids = [] -> fetchLog store lat ids D m d = [].
Proof.
  intros H. unfold fetchLog.
  destruct (levelsLeft D d) as [|n]; [reflexivity|]. simpl.
  destruct H as [H| ->].
  - replace (d >=? D) with true by (symmetry; apply Z.geb_le; lia). reflexivity.
  - rewrite orb_true_r. reflexivity.
Qed.

Lemma fetchLog_eq store lat ids D m d :
  d < D -> ids <> [] ->
  fetchLog store lat ids D m d
  = (d, ids) :: concat (map (childLog store lat D m d) ids).
Proof.
  intros Hd Hids. unfold fetchLog at 1.
  rewrite (levelsLeft_S D d Hd). cbn [fetchComments_fuel].
  replace (d >=? D) with false by (symmetry; rewrite Z.geb_leb; apply Z.leb_gt; lia).
  destruct ids as [|i ids]; [congruence|]. cbn [length Nat.eqb orb snd].
  rewrite map_map. f_equal. f_equal. apply map_ext. intros id.
  unfold childLog, fetchLog.
  destruct (fetchItem store id) as [c|]; [|reflexivity].
  destruct (keeps c); [|reflexivity].
  destruct (normalizeTime (item_time c)); [|reflexivity].
  destruct (hasKids c && (d <? D - 1)); [|reflexivity].
  destruct (fetchComments_fuel _ _ _ _ _ _ _) as [[cs|] log]; reflexivity.
Qed.

Lemma fetchLog_batches store lat D m : forall n d ids,
  levelsLeft D d = n ->
  Forall (fun b : Batch =>
            fst b = d /\ snd b = ids \/
            d < fst b /\ (length (snd b) <= 10)%nat)
         (fetchLog store lat ids D m d).
Proof.
  induction n as [|n IH]; intros d ids Hn.
  - rewrite fetchLog_guard; [constructor|]. left. unfold levelsLeft in Hn. lia.
  - assert (Hd : d < D) by (unfold levelsLeft in Hn; lia).
    destruct ids as [|i ids]; [rewrite fetchLog_guard by (now right); constructor|].
    rewrite fetchLog_eq by (lia || discriminate).
    constructor; [now left|].
    apply List.Forall_forall. intros b Hb.
    apply in_concat in Hb as (log & Hlog & Hb).
    apply in_map_iff in Hlog as (id & <- & _).
    unfold childLog in Hb. destruct (fetchItem store id) as [c|]; [|destruct Hb].
    destruct (keeps c); [|destruct Hb].
    destruct (normalizeTime _); [|destruct Hb].
    destruct (hasKids c && _); [|destruct Hb].
    assert (Hn' : levelsLeft D (d + 1) = n)
      by (rewrite (levelsLeft_S D d Hd) in Hn; congruence).
    specialize (IH (d + 1) (firstn 10 (kidsOf c)) Hn').
    rewrite List.Forall_forall in IH. right.
    destruct (IH b Hb) as [[-> ->]|[? ?]]; split; try lia.
    rewrite length_take. lia.
Qed.

Lemma fetchComments_length store lat ids D m d tree :
  fetchComments store lat ids D m d = Some tree ->
  (length tree <= length ids)%nat.
Proof.
  intros Htree. destruct (Z_lt_le_dec d D) as [Hd|Hd].
  - rewrite fetchComments_eq in Htree by exact Hd.
    apply levelResult_Some in Htree as (comments & Hcs & ->).
    rewrite (Permutation_length (Array_sort_perm_any _ _)).
    apply (f_equal length) in Hcs. rewrite length_map, length_fmap in Hcs.
    rewrite Hcs. clear. induction comments as [|[c|] l IH]; simpl; lia.
  - rewrite fetchComments_guard in Htree by (now left).
    injection Htree as <-. simpl. lia.
Qed.

(** C3, as stated, fails: the root call looks up every id it is given and
    returns a node for each; eleven live candidates give one batch of eleven
    lookups and eleven roots. *)
Lemma fetchComments_root_uncapped :
  fetchLog wideStore inOrder elevenIds 1 0 0 = [(0, elevenIds)] /\
  (exists tree, fetchComments wideStore inOrder elevenIds 1 0 0 = Some tree /\
                length tree = 11%nat) /\
  ~ (forall store lat ids D m,
       Forall (fun b : Batch => (length (snd b) <= 10)%nat)
              (fetchLog store lat ids D m 0) /\
       (forall tree, fetchComments store lat ids D m 0 = Some tree ->
          Forall (fun s : list Comment => (length s <= 10)%nat)
                 (siblingSequences tree))).
Proof.
  split; [reflexivity|]. split; [eexists; split; reflexivity|].
  intros H. destruct (H wideStore inOrder elevenIds 1 0) as [Hlog _].
  inversion Hlog as [|b rest Hb _ Heq]. subst. simpl in Hb. lia.
Qed.

(** C3, amended.  Below the root the candidates are cut to the first ten
    before any lookup: every batch of lookups other than the root call's own
    has at most ten ids and every [replies] array at most ten nodes, being
    built from the first ten [kids] of its node.  The root call looks up the
    ids as they are given and returns at most one node for each. *)
Theorem fetchComments_fanout store lat ids D m d :
  Forall (fun b : Batch =>
            fst b = d /\ snd b = ids \/
            d < fst b /\ (length (snd b) <= 10)%nat)
         (fetchLog store lat ids D m d) /\
  (d < D -> ids <> [] -> In (d, ids) (fetchLog store lat ids D m d)) /\
  (forall tree, fetchComments store lat ids D m d = Some tree ->
     (length tree <= length ids)%nat /\
     Forall (fun c =>
               (length (repliesOf c) <= 10)%nat /\
               (forall rs, replies c = Some rs ->
                  fetchComments store lat (firstn 10 (kidsOf (spread c)))
                    D m (depth c + 1) = Some rs))
            (treeNodes tree)).
Proof.
  split; [|split].
  - now apply (fetchLog_batches store lat D m (levelsLeft D d)).
  - intros Hd Hids. rewrite fetchLog_eq by assumption. now left.
  - intros tree Htree. split; [eapply fetchComments_length; exact Htree|].
    eapply fetchComments_nodes_ind; [|exact Htree]. intros d' id c _ Hnode _.
    apply nodeOf_Some in Hnode
      as (_ & _ & -> & _ & [[_ Hrep]|(_ & rs & Hrs & Hrep)]);
      unfold repliesOf; rewrite Hrep.
    + split; [simpl; lia|discriminate].
    + split; [|now intros rs' [= <-]].
      etransitivity; [eapply fetchComments_length; exact Hrs|].
      rewrite length_take. lia.
Qed.

(** ** The score threshold *)

(** [minScore] is passed down and never read: the result is the same for
    every threshold. *)
Lemma fetchComments_minScore_any store lat D m1 m2 : forall d ids,
  fetchComments store lat ids D m1 d = fetchComments store lat ids D m2 d.
Proof.
  intros d. remember (levelsLeft D d) as n eqn:Hn. revert d Hn.
  induction n as [|n IH]; intros d Hn ids.
  - rewrite !fetchComments_guard; [reflexivity| |]; left; unfold levelsLeft in Hn; lia.
  - assert (Hd : d < D) by (unfold levelsLeft in Hn; lia).
    rewrite !fetchComments_eq by exact Hd.
    f_equal. apply map_ext. intros id. unfold nodeOf.
    destruct (fetchItem store id) as [c|]; [|reflexivity].
    destruct (keeps c); [|reflexivity].
    destruct (normalizeTime (item_time c)); [|reflexivity].
    destruct (hasKids c && (d <? D - 1)); [|reflexivity].
    rewrite (IH (d + 1)); [reflexivity|].
    rewrite (levelsLeft_S D d Hd) in Hn. congruence.
Qed.

(** C1 on the code: with [minScore = 6] the thread is returned whole; the
    comments of score 5 and 3 and those without a score are all there. *)
Theorem fetchComments_minScore_unread :
  exists tree,
    fetchComments threadStore inOrder threadRoots 3 6 0 = Some tree /\
    map (fun c => (item_id (spread c), score c)) (treeNodes tree)
    = [(103, Some 20); (101, Some 10); (202, Some 7); (201, None);
       (301, Some 3); (203, None); (102, Some 5)] /\
    Exists (fun c => rank c < 6) (treeNodes tree).
Proof.
  eexists. split; [reflexivity|]. split; [reflexivity|].
  apply List.Exists_exists.
  exists (mkComment (aComment 102 (Some 5) None) 0 (IsoOfMillis 1175714200000) None).
  split; [|unfold rank; simpl; lia].
  vm_compute. tauto.
Qed.

(** ** Determinism *)

Lemma fetchComments_schedule_any store lat1 lat2 D m : forall d ids,
  fetchComments store lat1 ids D m d = fetchComments store lat2 ids D m d.
Proof.
  intros d. remember (levelsLeft D d) as n eqn:Hn. revert d Hn.
  induction n as [|n IH]; intros d Hn ids.
  - rewrite !fetchComments_guard; [reflexivity| |]; left; unfold levelsLeft in Hn; lia.
  - assert (Hd : d < D) by (unfold levelsLeft in Hn; lia).
    rewrite !fetchComments_eq by exact Hd.
    f_equal. apply map_ext. intros id. unfold nodeOf.
    destruct (fetchItem store id) as [c|]; [|reflexivity].
    destruct (keeps c); [|reflexivity].
    destruct (normalizeTime (item_time c)); [|reflexivity].
    destruct (hasKids c && (d <? D - 1)); [|reflexivity].
    rewrite (IH (d + 1)); [reflexivity|].
    rewrite (levelsLeft_S D d Hd) in Hn. congruence.
Qed.

Lemma level_ties store lat D m d v ids comments :
  map (nodeOf store lat D m d) ids = Some <$> comments ->
  map spread (filter (fun c => rank c = v) (filterBoolean comments))
  = filter (fun comment => keeps comment = true /\ orZero (item_score comment) = v)
      (filterBoolean (map (fetchItem store) ids)).
Proof.
  revert comments. induction ids as [|id ids IH]; intros [|c comments]; csimpl;
    try discriminate; [reflexivity|].
  intros [= Hnode Hrest]. specialize (IH _ Hrest).
  destruct c as [c|].
  - apply nodeOf_Some in Hnode as (Hf & Hk & _). rewrite Hf.
    cbn [filterBoolean]. rewrite !filter_cons.
    destruct (decide (rank c = v)) as [Hv|Hv].
    + rewrite decide_True by (split; [exact Hk|exact Hv]).
      cbn [map]. now rewrite IH.
    + rewrite decide_False by (intros [_ ?]; now apply Hv). exact IH.
  - unfold nodeOf in Hnode. destruct (fetchItem store id) as [comment|]; [|exact IH].
    cbn [filterBoolean]. rewrite filter_cons.
    destruct (keeps comment) eqn:Hk.
    + destruct (normalizeTime _); [|discriminate].
      destruct (hasKids comment && _); [|discriminate].
      destruct (fetchComments _ _ _ _ _ _); discriminate.
    + rewrite decide_False by (intros [? _]; discriminate). exact IH.
Qed.

(** C9.  For one store, the outcome does not depend on the order in which
    the lookups settle: [Promise.all] gives the values by position whatever
    that order, and the sort is stable, so the siblings of one score come in
    the order of the candidate ids, at the root and, each [replies] array
    being the build of the first ten [kids], below it. *)
Theorem fetchComments_deterministic store lat1 lat2 ids D m d :
  fetchComments store lat1 ids D m d = fetchComments store lat2 ids D m d /\
  (forall (order : list nat) (promises : list (option (option Comment))),
     (forall i, (i < length promises)%nat -> i ∈ order) ->
     Promise_all order promises = allFulfilled promises) /\
  (forall tree, fetchComments store lat1 ids D m d = Some tree ->
     (d < D -> forall v,
        map spread (filter (fun c => rank c = v) tree)
        = filter (fun comment =>
                    keeps comment = true /\ orZero (item_score comment) = v)
            (filterBoolean (map (fetchItem store) ids))) /\
     Forall (fun c => forall rs, replies c = Some rs ->
               fetchComments store lat1 (firstn 10 (kidsOf (spread c)))
                 D m (depth c + 1) = Some rs)
            (treeNodes tree)).
Proof.
  split; [apply fetchComments_schedule_any|].
  split; [intros order promises; apply Promise_all_positional|].
  intros tree Htree. split.
  - intros Hd v. rewrite fetchComments_eq in Htree by exact Hd.
    apply levelResult_Some in Htree as (comments & Hcs & ->).
    rewrite byScoreDesc_descBy, Array_sort_stable.
    now apply (level_ties store lat1 D m d).
  - eapply fetchComments_nodes_ind; [|exact Htree]. intros d' id c _ Hnode _ rs Hrs.
    apply nodeOf_Some in Hnode
      as (_ & _ & -> & _ & [[_ Hrep]|(_ & rs' & Hrs' & Hrep)]); congruence.
Qed.

(** ** Fuel and errors *)

(** The fuel [fetchComments] starts with is never what stops it: more fuel
    gives the same outcome and the same log. *)
Lemma fetchComments_fuel_enough store lat D m : forall n d ids extra,
  levelsLeft D d = n ->
  fetchComments_fuel (n + extra) store lat ids D m d
  = fetchComments_fuel n store lat ids D m d.
Proof.
  induction n as [|n IH]; intros d ids extra Hn.
  - destruct extra as [|extra]; [reflexivity|]. simpl.
    replace (d >=? D) with true; [reflexivity|].
    symmetry. apply Z.geb_le. unfold levelsLeft in Hn. lia.
  - assert (Hd : d < D) by (unfold levelsLeft in Hn; lia).
    assert (Hn' : levelsLeft D (d + 1) = n)
      by (rewrite (levelsLeft_S D d Hd) in Hn; congruence).
    cbn [Nat.add fetchComments_fuel].
    destruct ((d >=? D) || Nat.eqb (length ids) 0); [reflexivity|].
    assert (Hmap : forall f g : Z -> option (option Comment) * list Batch,
              (forall id, f id = g id) -> map f ids = map g ids)
      by (intros f g Hfg; apply map_ext; exact Hfg).
    erewrite Hmap; [reflexivity|]. intros id. cbv beta.
    destruct (fetchItem store id) as [c|]; [|reflexivity].
    destruct (keeps c); [|reflexivity].
    destruct (normalizeTime (item_time c)); [|reflexivity].
    destruct (hasKids c && (d <? D - 1)); [|reflexivity].
    now rewrite (IH (d + 1) _ extra Hn').
Qed.

(** When the times of the live comments of the store are within the range of
    [Date], every call returns a tree. *)
Lemma fetchComments_returns store lat D m :
  (forall id comment, fetchItem store id = Some comment -> keeps comment = true ->
                      is_Some (normalizeTime (item_time comment))) ->
  forall d ids, is_Some (fetchComments store lat ids D m d).
Proof.
  intros Htimes d. remember (levelsLeft D d) as n eqn:Hn. revert d Hn.
  induction n as [|n IH]; intros d Hn ids.
  - rewrite fetchComments_guard; [now eexists|]. left. unfold levelsLeft in Hn. lia.
  - assert (Hd : d < D) by (unfold levelsLeft in Hn; lia).
    assert (Hn' : levelsLeft D (d + 1) = n)
      by (rewrite (levelsLeft_S D d Hd) in Hn; congruence).
    rewrite fetchComments_eq by exact Hd. unfold levelResult.
    assert (Hall : is_Some (allFulfilled (map (nodeOf store lat D m d) ids))).
    { induction ids as [|id ids IHids]; simpl; [now eexists|].
      assert (Hnode : is_Some (nodeOf store lat D m d id)).
      { unfold nodeOf. destruct (fetchItem store id) as [c|] eqn:Hf; [|now eexists].
        destruct (keeps c) eqn:Hk; [|now eexists].
        destruct (Htimes id c Hf Hk) as [t ->].
        destruct (hasKids c && (d <? D - 1)); [|now eexists].
        destruct (IH (d + 1) (eq_sym Hn') (firstn 10 (kidsOf c))) as [cs ->].
        now eexists. }
      destruct Hnode as [node ->]. destruct IHids as [l ->]. now eexists. }
    destruct Hall as [l ->]. now eexists.
Qed.

(** ** The example thread *)

Lemma threadTree_built :
  fetchComments threadStore lastFirst threadRoots 3 1 0 = Some threadTree.
Proof. reflexivity. Qed.

Lemma fetchComments_depth_witness :
  1 <= 3 /\
  fetchComments threadStore lastFirst threadRoots 3 1 0 = Some threadTree /\
  Forall (fun c => 0 <= depth c <= 3 - 1) (treeNodes threadTree) /\
  Forall (fun c => depth c = 0) threadTree /\
  Forall (fun p => Forall (fun c => depth c = depth p + 1) (repliesOf p))
         (treeNodes threadTree).
Proof.
  split; [lia|]. split; [reflexivity|].
  apply (fetchComments_depth threadStore lastFirst threadRoots 3 1 threadTree);
    [lia|reflexivity].
Defined.

Lemma fetchComments_sorted_witness :
  fetchComments threadStore inOrder threadRoots 3 1 0 = Some threadTree /\
  Forall (nonIncreasing rank) (siblingSequences threadTree).
Proof.
  split; [reflexivity|].
  apply (fetchComments_sorted threadStore inOrder threadRoots 3 1 0 threadTree).
  reflexivity.
Defined.

Lemma fetchComments_prunes_witness :
  usable threadStore 106 = false /\
  fetchComments threadStore inOrder ([101; 102] ++ 106 :: [103]) 2 1 0
  = fetchComments threadStore inOrder ([101; 102] ++ [103]) 2 1 0 /\
  Forall (fun id => usable threadStore id = false) [104; 105; 106; 107; 108] /\
  fetchComments threadStore inOrder [104; 105; 106; 107; 108] 2 1 0 = Some [].
Proof.
  split; [reflexivity|]. split.
  - apply (fetchComments_prunes threadStore inOrder threadRoots 2 1 0). reflexivity.
  - assert (H : Forall (fun id => usable threadStore id = false)
                       [104; 105; 106; 107; 108])
      by (repeat constructor).
    split; [exact H|].
    apply (fetchComments_prunes threadStore inOrder [104; 105; 106; 107; 108] 2 1 0).
    exact H.
Defined.

Lemma fetchComments_replies_witness :
  fetchComments threadStore inOrder threadRoots 3 1 0 = Some threadTree /\
  map (fun c => (item_id (spread c), item_kids (spread c), depth c,
                 option_map (map (fun r => item_id (spread r))) (replies c)))
      (treeNodes threadTree)
  = [(103, Some [], 0, None);
     (101, Some [201; 202; 203], 0, Some [202; 201; 203]);
     (202, None, 1, None); (201, Some [301], 1, Some [301]);
     (301, None, 2, None); (203, None, 1, None); (102, None, 0, None)] /\
  Forall (fun c => is_Some (replies c) <->
                   (exists k ks, item_kids (spread c) = Some (k :: ks)) /\
                   depth c < 3 - 1)
         (treeNodes threadTree).
Proof.
  split; [reflexivity|]. split; [reflexivity|].
  apply (fetchComments_replies threadStore inOrder threadRoots 3 1 0). reflexivity.
Defined.

Lemma fetchComments_fanout_witness :
  exists tree,
    fetchComments wideStore inOrder elevenIds 2 0 0 = Some tree /\
    map (fun c => length (repliesOf c)) tree
    = [10; 10; 10; 10; 10; 10; 10; 10; 10; 10; 10]%nat /\
    (length tree <= length elevenIds)%nat /\
    Forall (fun c =>
              (length (repliesOf c) <= 10)%nat /\
              (forall rs, replies c = Some rs ->
                 fetchComments wideStore inOrder (firstn 10 (kidsOf (spread c)))
                   2 0 (depth c + 1) = Some rs))
           (treeNodes tree).
Proof.
  eexists. split; [reflexivity|]. split; [reflexivity|].
  apply (fetchComments_fanout wideStore inOrder elevenIds 2 0 0). reflexivity.
Defined.

Lemma fetchComments_deterministic_witness :
  fetchComments threadStore lastFirst threadRoots 3 1 0
  = fetchComments threadStore inOrder threadRoots 3 1 0 /\
  fetchComments threadStore lastFirst threadRoots 3 1 0 = Some threadTree /\
  map spread (filter (fun c => rank c = 0) threadTree) = [] /\
  match threadTree with
  | [_; second; _] =>
    map (fun c => item_id (spread c))
        (filter (fun c => rank c = 0) (repliesOf second)) = [201; 203]
  | _ => False
  end.
Proof.
  split; [|split; [reflexivity|split; [|reflexivity]]].
  - apply (fetchComments_deterministic threadStore lastFirst inOrder threadRoots 3 1 0).
  - transitivity
      (filter (fun comment => keeps comment = true /\ orZero (item_score comment) = 0)
         (filterBoolean (map (fetchItem threadStore) threadRoots)));
      [|reflexivity].
    apply (fetchComments_deterministic threadStore lastFirst inOrder threadRoots 3 1 0);
      [reflexivity|lia].
Defined.

(** ** The window *)

(** C7.  For [startIndex >= 0] and [maxLength >= 0] the window is the part of
    the text from [startIndex] up to [min (startIndex + maxLength) length]:
    its code unit [i] is code unit [startIndex + i] of the text as long as
    that is before the end of the window, and there are no others; it is
    empty when [startIndex >= length].  [window "abcdefghij" 6 3 = "ghi"] and
    [window "abc" 5 10 = ""]. *)
Theorem applyLengthLimits_window (text : JSString) (startIndex maxLength : Z) :
  0 <= startIndex -> 0 <= maxLength ->
  let len := Z.of_nat (length text) in
  let stop := Z.min (startIndex + maxLength) len in
  let out := Fetcher.applyLengthLimits text maxLength startIndex in
  (forall i : nat,
     out !! i = if decide (startIndex + Z.of_nat i < stop)
                then text !! (Z.to_nat startIndex + i)%nat
                else None) /\
  out = firstn (Z.to_nat (stop - startIndex)) (skipn (Z.to_nat startIndex) text) /\
  (len <= startIndex -> out = []) /\
  Fetcher.applyLengthLimits (lit "abcdefghij") 3 6 = lit "ghi" /\
  Fetcher.applyLengthLimits (lit "abc") 10 5 = [].
Proof.
  intros Hs Hm len stop out.
  assert (Hout : out = firstn (Z.to_nat (stop - startIndex))
                         (skipn (Z.to_nat startIndex) text)).
  { subst out. unfold Fetcher.applyLengthLimits. fold len.
    destruct (Z.geb_spec startIndex len) as [Hge|Hlt].
    - replace (Z.to_nat (stop - startIndex)) with O by (subst stop; lia).
      reflexivity.
    - unfold substring. fold len. fold stop.
      replace (Z.min (Z.max startIndex 0) len) with startIndex by lia.
      replace (Z.min (Z.max stop 0) len) with stop by (subst stop; lia).
      replace (Z.min startIndex stop) with startIndex by (subst stop; lia).
      replace (Z.max startIndex stop) with stop by (subst stop; lia).
      reflexivity. }
  split; [|split; [exact Hout|split; [|split; reflexivity]]].
  - intros i. rewrite Hout.
    destruct (decide (startIndex + Z.of_nat i < stop)) as [Hi|Hi].
    + rewrite lookup_take_lt by lia. apply lookup_drop.
    + apply lookup_take_ge. lia.
  - intros Hge. subst out. unfold Fetcher.applyLengthLimits. fold len.
    destruct (Z.geb_spec startIndex len); [reflexivity|lia].
Qed.

Lemma applyLengthLimits_window_witness :
  0 <= 6 /\ 0 <= 3 /\
  Fetcher.applyLengthLimits (lit "abcdefghij") 3 6 !! 2%nat
  = lit "abcdefghij" !! 8%nat.
Proof.
  split; [lia|]. split; [lia|].
  apply (applyLengthLimits_window (lit "abcdefghij") 6 3); lia.
Defined.

(** ** The security gate *)

Section Gate.
Variable classifier : JSString -> option bool.
Variable network : Fetcher.Network.
Variable payload : Fetcher.RequestPayload.

(** When the classifier says [true] for the string it is given, every
    entry point returns the error and sends nothing. *)
Lemma gate_blocks (convert : JSString -> JSString + JSString) :
  classifier (Fetcher.url payload) = Some true ->
  Fetcher.respond classifier network convert payload
  = ({| Fetcher.content :=
          Fetcher.failedToFetch (Fetcher.url payload)
            (Fetcher.blockedMessage (Fetcher.url payload));
        Fetcher.isError := true |}, []).
Proof.
  intros H. unfold Fetcher.respond, Fetcher._fetch. rewrite H. reflexivity.
Qed.

(** When it says anything else, the request goes out. *)
Lemma gate_passes (convert : JSString -> JSString + JSString) :
  classifier (Fetcher.url payload) <> Some true ->
  snd (Fetcher.respond classifier network convert payload)
  = [(Fetcher.url payload, Fetcher.withDefaults (Fetcher.headers payload))].
Proof.
  intros H. unfold Fetcher.respond, Fetcher._fetch.
  destruct (classifier (Fetcher.url payload)) as [[|]|]; [congruence| |];
    (destruct (network _) as [msg|[|] status body]; simpl;
     [reflexivity|destruct (convert body); reflexivity|reflexivity]).
Qed.
End Gate.

(** C2 on the code: [_fetch] hands the whole URL to the classifier, which
    knows addresses; [http://127.0.0.1/admin] is not one, the answer is
    [undefined] and, through every entry point, the request is sent.  Against
    a host that answers, the markdown entry point returns the page with
    [isError: false]. *)
Theorem markdown_loopback_fetched :
  is_ip_private (lit "127.0.0.1") = Some true /\
  is_ip_private (Fetcher.url loopbackAdmin) = None /\
  (forall network engines,
     let sent := [(lit "http://127.0.0.1/admin",
                   [(lit "User-Agent", Fetcher.userAgent)])] in
     snd (Fetcher.html is_ip_private network loopbackAdmin) = sent /\
     snd (Fetcher.json is_ip_private network engines loopbackAdmin) = sent /\
     snd (Fetcher.txt is_ip_private network engines loopbackAdmin) = sent /\
     snd (Fetcher.markdown is_ip_private network engines loopbackAdmin) = sent) /\
  Fetcher.markdown is_ip_private adminPanel verbatim loopbackAdmin
  = ({| Fetcher.content := lit "<main>root password</main>";
        Fetcher.isError := false |},
     [(lit "http://127.0.0.1/admin", [(lit "User-Agent", Fetcher.userAgent)])]).
Proof.
  split; [reflexivity|]. split; [reflexivity|]. split; [|reflexivity].
  intros network engines sent.
  unfold Fetcher.html, Fetcher.json, Fetcher.txt, Fetcher.markdown.
  repeat split; (rewrite gate_passes; [reflexivity|discriminate]).
Qed.

(** ** The text of a rendered comment *)

(** What holds of the body: the tags are gone, the blank lines are
    collapsed, the five entities are replaced and every line is indented. *)

Lemma replaceFrom_skip pattern replacement : forall s k,
  replaceFrom pattern replacement k s
  = replaceFrom pattern replacement O (skipn k s).
Proof.
  induction s as [|c s IH]; intros [|k]; try reflexivity.
  simpl. apply IH.
Qed.

Lemma replace_nil pattern replacement : replace pattern replacement [] = [].
Proof. reflexivity. Qed.

Lemma replace_cons pattern replacement c s :
  replace pattern replacement (c :: s)
  = match pattern (c :: s) with
    | Some n => replacement ++ replace pattern replacement (skipn (Nat.pred n) s)
    | None => c :: replace pattern replacement s
    end.
Proof.
  unfold replace. simpl. destruct (pattern (c :: s)); [|reflexivity].
  now rewrite replaceFrom_skip.
Qed.

(** Induction along the scan of [replace]. *)
Lemma replace_ind pattern replacement (P : list N -> list N -> Prop) :
  P [] [] ->
  (forall c s n, pattern (c :: s) = Some n ->
     P (skipn (Nat.pred n) s) (replace pattern replacement (skipn (Nat.pred n) s)) ->
     P (c :: s) (replacement ++ replace pattern replacement (skipn (Nat.pred n) s))) ->
  (forall c s, pattern (c :: s) = None ->
     P s (replace pattern replacement s) ->
     P (c :: s) (c :: replace pattern replacement s)) ->
  forall s, P s (replace pattern replacement s).
Proof.
  intros Hnil Hhit Hmiss s.
  remember (length s) as len eqn:Hlen.
  revert s Hlen. induction len as [len IH] using lt_wf_ind. intros s Hlen.
  destruct s as [|c s]; [exact Hnil|].
  rewrite replace_cons. destruct (pattern (c :: s)) as [n|] eqn:Hp.
  - apply Hhit; [exact Hp|].
    apply (IH (length (skipn (Nat.pred n) s))); [|reflexivity].
    subst len. simpl. rewrite length_skipn. lia.
  - apply Hmiss; [exact Hp|]. apply (IH (length s)); [subst len; simpl; lia|reflexivity].
Qed.

Lemma replace_In pattern replacement x : forall s,
  In x (replace pattern replacement s) -> In x replacement \/ In x s.
Proof.
  apply (replace_ind pattern replacement
           (fun s out => In x out -> In x replacement \/ In x s)).
  - intros [].
  - intros c s n _ IH Hin. apply in_app_or in Hin as [Hin|Hin]; [now left|].
    destruct (IH Hin) as [H|H]; [now left|]. right. right.
    revert H. clear. revert s. induction (Nat.pred n) as [|k IHk]; intros s H;
      [exact H|]. destruct s as [|c s]; [destruct H|]. right. now apply IHk.
  - intros c s _ IH [<-|Hin]; [right; now left|].
    destruct (IH Hin) as [H|H]; [now left|right; now right].
Qed.

Lemma noMatch_cons pattern c s :
  noMatch pattern (c :: s) = true <->
  pattern (c :: s) = None /\ noMatch pattern s = true.
Proof.
  simpl. destruct (pattern (c :: s)); [split; [discriminate|intros [[=] _]]|].
  split; [now split|intros [_ H]; exact H].
Qed.

Lemma noMatch_skipn pattern : forall k s,
  noMatch pattern s = true -> noMatch pattern (skipn k s) = true.
Proof.
  induction k as [|k IH]; intros s H; [exact H|].
  destruct s as [|c s]; [exact H|]. simpl skipn.
  apply IH. now apply noMatch_cons in H.
Qed.

Lemma upTo_None stop s : upTo stop s = None <-> ~ In stop s.
Proof.
  induction s as [|c s IH]; simpl; [split; [intros _ []|reflexivity]|].
  destruct (N.eqb_spec c stop) as [->|Hne].
  - split; [discriminate|]. intros H. exfalso. apply H. now left.
  - destruct (upTo stop s) as [k|]; simpl.
    + split; [discriminate|]. intros H.
      assert (Hk : Some k = None) by (apply IH; tauto). discriminate.
    + split; [|reflexivity]. intros _ [H|H]; [congruence|].
      now apply (proj1 IH eq_refl).
Qed.

Lemma anyTag_None c s :
  anyTag (c :: s) = None <-> c <> lessThan \/ ~ In greaterThan s.
Proof.
  unfold anyTag. destruct (N.eqb_spec c lessThan) as [->|Hne].
  - rewrite <- upTo_None. destruct (upTo greaterThan s); simpl.
    + split; [discriminate|]. intros [H|H]; [congruence|discriminate].
    + split; [now right|reflexivity].
  - split; [now left|reflexivity].
Qed.

(** After [/<[^>]*>/g] no tag is left. *)
Lemma anyTag_stripped : forall s, noMatch anyTag (replace anyTag [] s) = true.
Proof.
  apply (replace_ind anyTag [] (fun _ out => noMatch anyTag out = true)).
  - reflexivity.
  - intros c s n _ IH. exact IH.
  - intros c s Hp IH. apply noMatch_cons. split; [|exact IH].
    apply anyTag_None. apply anyTag_None in Hp as [Hc|Hs]; [now left|right].
    intros Hin. apply replace_In in Hin as [[]|Hin]. now apply Hs.
Qed.

(** Collapsing blank lines brings no tag back. *)
Lemma blankLines_keeps_tagFree : forall s,
  noMatch anyTag s = true ->
  noMatch anyTag (replace blankLines [newline; newline] s) = true.
Proof.
  apply (replace_ind blankLines [newline; newline]
           (fun s out => noMatch anyTag s = true -> noMatch anyTag out = true)).
  - intros _. reflexivity.
  - intros c s n _ IH Hs. apply noMatch_cons in Hs as [_ Hs].
    specialize (IH (noMatch_skipn _ _ _ Hs)).
    simpl app. apply noMatch_cons. split; [reflexivity|].
    apply noMatch_cons. split; [reflexivity|exact IH].
  - intros c s _ IH Hs. apply noMatch_cons in Hs as [Hc Hs].
    apply noMatch_cons. split; [|now apply IH].
    apply anyTag_None. apply anyTag_None in Hc as [Hc|Hc]; [now left|right].
    intros Hin. apply replace_In in Hin as [Hin|Hin]; [|now apply Hc].
    simpl in Hin. unfold newline, greaterThan in Hin.
    destruct Hin as [Hin|[Hin|[]]]; discriminate.
Qed.

Lemma cleanText_tagFree text : noMatch anyTag (cleanText text) = true.
Proof.
  unfold cleanText, collapseBlankLines, stripTags.
  apply blankLines_keeps_tagFree, anyTag_stripped.
Qed.

Lemma throughLastNewline_None c s :
  throughLastNewline (c :: s) = None <->
  isSpace c = false \/ throughLastNewline s = None /\ c <> newline.
Proof.
  simpl. destruct (isSpace c) eqn:Hc; [|split; [now left|reflexivity]].
  destruct (throughLastNewline s) as [k|].
  - split; [discriminate|]. intros [H|[H _]]; discriminate.
  - destruct (N.eqb_spec c newline) as [->|Hne].
    + split; [discriminate|]. intros [H|[_ H]]; [discriminate|congruence].
    + split; [now right|reflexivity].
Qed.

Lemma blankLines_Some c s n :
  blankLines (c :: s) = Some n ->
  c = newline /\ throughLastNewline s = Some (Nat.pred n).
Proof.
  unfold blankLines. destruct (N.eqb_spec c newline) as [->|Hne]; [|discriminate].
  destruct (throughLastNewline s) as [k|]; [|discriminate].
  intros [= <-]. now split.
Qed.

Lemma blankLines_None s :
  blankLines (newline :: s) = None -> throughLastNewline s = None.
Proof.
  unfold blankLines. simpl. destruct (throughLastNewline s); [discriminate|reflexivity].
Qed.

(** Behind the last line break of the white space there is none. *)
Lemma throughLastNewline_rest : forall s k,
  throughLastNewline s = Some k -> throughLastNewline (skipn k s) = None.
Proof.
  induction s as [|c s IH]; intros k; simpl; [discriminate|].
  destruct (isSpace c); [|discriminate].
  destruct (throughLastNewline s) as [n|] eqn:Hs.
  - intros [= <-]. simpl. now apply IH.
  - destruct (N.eqb c newline); [|discriminate]. intros [= <-]. exact Hs.
Qed.

Lemma collapse_keeps_head : forall s,
  throughLastNewline s = None ->
  throughLastNewline (replace blankLines [newline; newline] s) = None.
Proof.
  apply (replace_ind blankLines [newline; newline]
           (fun s out => throughLastNewline s = None ->
                         throughLastNewline out = None)).
  - intros _. reflexivity.
  - intros c s n Hp _ Hs. apply blankLines_Some in Hp as [-> _].
    apply throughLastNewline_None in Hs as [Hs|[_ Hs]]; [discriminate|congruence].
  - intros c s _ IH Hs. apply throughLastNewline_None.
    apply throughLastNewline_None in Hs as [Hs|[Hs Hc]]; [now left|right].
    split; [now apply IH|exact Hc].
Qed.

Lemma blankGap_after_newline t :
  throughLastNewline t = None ->
  blankGap (newline :: t) = None /\ blankGap (newline :: newline :: t) = None.
Proof.
  intros Ht. split.
  - destruct t as [|w t]; [reflexivity|]. unfold blankGap.
    apply throughLastNewline_None in Ht as [Hw|[Ht _]].
    + rewrite Hw, andb_false_r. reflexivity.
    + rewrite Ht. now destruct (_ && _).
  - unfold blankGap. rewrite Ht. now destruct (_ && _).
Qed.

(** After [/\n\s*\n/g] no two line breaks are left with white space between
    them. *)
Lemma blankLines_collapsed : forall s,
  noMatch blankGap (replace blankLines [newline; newline] s) = true.
Proof.
  apply (replace_ind blankLines [newline; newline]
           (fun _ out => noMatch blankGap out = true)).
  - reflexivity.
  - intros c s n Hp IH. apply blankLines_Some in Hp as [_ Hp].
    apply throughLastNewline_rest, collapse_keeps_head in Hp.
    destruct (blankGap_after_newline _ Hp) as [H1 H2].
    simpl app. apply noMatch_cons. split; [exact H2|].
    apply noMatch_cons. split; [exact H1|exact IH].
  - intros c s Hp IH. apply noMatch_cons. split; [|exact IH].
    destruct (N.eqb_spec c newline) as [->|Hne].
    + apply blankLines_None, collapse_keeps_head in Hp.
      now apply blankGap_after_newline.
    + unfold blankGap. destruct (replace _ _ s) as [|w t]; [reflexivity|].
      apply N.eqb_neq in Hne. now rewrite Hne.
Qed.

(** Literal patterns replaced by one character. *)
Lemma literally_None q s : literally q s = None <-> startsWith q s = false.
Proof. unfold literally. destruct (startsWith q s); split; congruence. Qed.

Lemma startsWith_replaced p r : forall s q,
  ~ In r q ->
  startsWith q (replace (literally p) [r] s) = true -> startsWith q s = true.
Proof.
  apply (replace_ind (literally p) [r]
           (fun s out => forall q, ~ In r q ->
                           startsWith q out = true -> startsWith q s = true)).
  - intros q _ H. exact H.
  - intros c s n _ _ [|x q] Hr H; [reflexivity|]. simpl in H.
    apply andb_true_iff in H as [Hx _]. apply N.eqb_eq in Hx.
    exfalso. apply Hr. now left.
  - intros c s _ IH [|x q] Hr H; [reflexivity|]. simpl in *.
    apply andb_true_iff in H as [Hx H]. rewrite Hx. simpl.
    apply IH; [|exact H]. intros Hin. apply Hr. now right.
Qed.

Lemma literal_absent p r q :
  q <> [] -> ~ In r q -> forall s,
  noMatch (literally q) s = true \/ q = p ->
  noMatch (literally q) (replace (literally p) [r] s) = true.
Proof.
  intros Hq Hr.
  apply (replace_ind (literally p) [r]
           (fun s out => noMatch (literally q) s = true \/ q = p ->
                         noMatch (literally q) out = true)).
  - intros _. destruct q as [|x q]; [congruence|reflexivity].
  - intros c s n _ IH Hs. simpl app. apply noMatch_cons. split.
    + apply literally_None. destruct q as [|x q]; [congruence|]. simpl.
      destruct (N.eqb_spec x r) as [->|_]; [|reflexivity].
      exfalso. apply Hr. now left.
    + apply IH. destruct Hs as [Hs|Hs]; [left|now right].
      apply noMatch_cons in Hs as [_ Hs]. now apply noMatch_skipn.
  - intros c s Hp IH Hs. apply noMatch_cons. split.
    + apply literally_None. destruct (startsWith q (c :: replace _ _ s)) eqn:Hsw;
        [|reflexivity].
      assert (Hout : replace (literally p) [r] (c :: s)
                     = c :: replace (literally p) [r] s)
        by (rewrite replace_cons, Hp; reflexivity).
      rewrite <- Hout in Hsw. apply startsWith_replaced in Hsw; [|exact Hr].
      destruct Hs as [Hs| ->].
      * apply noMatch_cons in Hs as [Hs _]. apply literally_None in Hs. congruence.
      * apply literally_None in Hp. congruence.
    + apply IH. destruct Hs as [Hs|Hs]; [left|now right].
      now apply noMatch_cons in Hs.
Qed.

Ltac absent_char :=
  let H := fresh in
  intros H; vm_compute in H;
  repeat (destruct H as [H|H]; [discriminate H|]); exact H.

(** None of the five entities is left once they have been replaced (before
    the tags are deleted). *)
Lemma unescapeEntities_replaced text :
  Forall (fun entity => noMatch (literally entity) (unescapeEntities text) = true)
         replacedEntities.
Proof.
  unfold unescapeEntities, replacedEntities.
  repeat constructor;
    repeat (apply literal_absent;
            [discriminate | absent_char | first [now right | left]]).
Qed.

(** Every line of the clean text is emitted behind two spaces per level and
    three more. *)
Lemma split_cons separator s : exists line lines, split separator s = line :: lines.
Proof.
  induction s as [|c s (line & lines & IH)]; simpl; [now exists [], []|].
  destruct (N.eqb c separator); [now eexists _, _|].
  rewrite IH. now eexists _, _.
Qed.

Lemma split_lines separator s :
  Forall (fun line => ~ In separator line) (split separator s).
Proof.
  induction s as [|c s IH]; simpl; [repeat constructor; intros []|].
  destruct (N.eqb_spec c separator) as [->|Hne]; [constructor; [intros []|exact IH]|].
  destruct (split separator s) as [|line lines]; [repeat constructor; intros [H|[]]; congruence|].
  inversion IH as [|? ? Hline Hlines]; subst.
  constructor; [|exact Hlines]. intros [H|H]; [congruence|now apply Hline].
Qed.

Lemma join_indented pad line lines :
  pad ++ join ([newline] ++ pad) (line :: lines) ++ [newline]
  = concat (map (fun l => pad ++ l ++ [newline]) (line :: lines)).
Proof.
  revert line. induction lines as [|next lines IH]; intros line.
  - simpl. now rewrite !app_nil_r.
  - change (join ([newline] ++ pad) (line :: next :: lines))
      with (line ++ ([newline] ++ pad) ++ join ([newline] ++ pad) (next :: lines)).
    rewrite map_cons, concat_cons, <- IH. now rewrite <- !app_assoc.
Qed.

Lemma indentOf_spaces depth :
  indentOf depth ++ lit "   " = replicate (2 * depth + 3) 32%N.
Proof.
  unfold indentOf, repeatString.
  induction depth as [|depth IH]; [reflexivity|].
  replace (2 * S depth + 3)%nat with (S (S (2 * depth + 3))) by lia.
  cbn [replicate concat]. rewrite <- IH. reflexivity.
Qed.

Lemma bodyLines_indented comment depth :
  bodyLines comment depth
  = concat (map (fun line => replicate (2 * depth + 3) 32%N ++ line ++ [newline])
              (split newline (cleanText (item_text (spread comment)))))
    ++ [newline].
Proof.
  unfold bodyLines.
  destruct (split_cons newline (cleanText (item_text (spread comment))))
    as (line & lines & ->).
  rewrite <- indentOf_spaces, <- join_indented.
  change [newline; newline] with ([newline] ++ [newline]).
  now rewrite <- !app_assoc.
Qed.

Lemma formatComment_unfold comment depth :
  formatComment comment depth
  = headLine comment depth ++ bodyLines comment depth
    ++ flat_map (fun reply => formatComment reply (S depth)) (repliesOf comment).
Proof. destruct comment as [s d t [rs|]]; reflexivity. Qed.

(** In a tree built from depth 0 the [depth] argument of [formatComment] is
    the [depth] field of the comment it renders. *)
Lemma renderedAt_depth store lat D m d ids tree :
  fetchComments store lat ids D m d = Some tree ->
  forall k, Forall (fun p => depth (fst p) = d + Z.of_nat (snd p) - Z.of_nat k)
                   (flat_map (renderedAt k) tree).
Proof.
  revert d ids tree.
  apply (fetchComments_ind store lat D m
           (fun d _ tree =>
              forall k, Forall (fun p => depth (fst p)
                                         = d + Z.of_nat (snd p) - Z.of_nat k)
                               (flat_map (renderedAt k) tree))).
  - intros; constructor.
  - intros d ids tree Hd Htree IH k. apply List.Forall_forall. intros [c k'] Hc.
    apply in_flat_map in Hc as (r & Hr & Hc).
    destruct (fetchComments_roots _ _ _ _ _ _ _ _ Htree Hr) as (_ & id & _ & Hnode).
    apply nodeOf_Some in Hnode
      as (_ & _ & Hdep & _ & [[_ Hrep]|(_ & rs & Hrs & Hrep)]);
      destruct r as [s dr t rep]; simpl in Hrep, Hdep; subst rep;
      simpl in Hc; destruct Hc as [[= <- <-]|Hc]; simpl; try lia; try (destruct Hc).
    specialize (IH _ _ Hrs (S k)). rewrite List.Forall_forall in IH.
    specialize (IH _ Hc). simpl in IH. lia.
Qed.

Lemma In_skipn_tail {A} (x : A) : forall k l, In x (skipn k l) -> In x l.
Proof.
  induction k as [|k IH]; intros [|c l] H; try exact H.
  right. now apply IH.
Qed.

Lemma noMatch_implied (p q : Pattern) :
  (forall s, q s = None -> p s = None) ->
  forall s, noMatch q s = true -> noMatch p s = true.
Proof.
  intros Hpq. induction s as [|c s IH]; simpl.
  - destruct (q []) eqn:Hq; [discriminate|]. now rewrite (Hpq _ Hq).
  - destruct (q (c :: s)) eqn:Hq; [discriminate|]. rewrite (Hpq _ Hq). exact IH.
Qed.

(** An opening anchor and a closing one are tags. *)
Lemma anchorOpen_is_tag s : anyTag s = None -> anchorOpen s = None.
Proof.
  destruct s as [|c s]; [reflexivity|]. intros H.
  apply anyTag_None in H as [Hc|Hs]; unfold anchorOpen.
  - cbn [lit list_ascii_of_string map app startsWith]. 
    destruct (N.eqb_spec (N_of_ascii "<") c) as [<-|_]; [now elim Hc|reflexivity].
  - destruct (startsWith _ _); [|reflexivity].
    destruct (upTo quote _) as [i|]; [|reflexivity].
    destruct (upTo greaterThan _) as [j|] eqn:Hj; [|reflexivity].
    exfalso. assert (Hin : upTo greaterThan
                             (skipn (S i) (skipn (length (lit "<a href=" ++ [quote]))
                                             (c :: s))) <> None) by congruence.
    apply Hin, upTo_None. intros Hgt. apply Hs.
    apply In_skipn_tail in Hgt. simpl in Hgt. now apply In_skipn_tail in Hgt.
Qed.

Lemma anchorClose_is_tag s : anyTag s = None -> literally (lit "</a>") s = None.
Proof.
  destruct s as [|c s]; [reflexivity|]. intros H. apply literally_None.
  apply anyTag_None in H as [Hc|Hs].
  - cbn [lit list_ascii_of_string map startsWith].
    destruct (N.eqb_spec (N_of_ascii "<") c) as [<-|_]; [now elim Hc|reflexivity].
  - destruct (startsWith (lit "</a>") (c :: s)) eqn:Hsw; [|reflexivity].
    exfalso. apply Hs. destruct s as [|c1 [|c2 [|c3 s]]];
      cbn [lit list_ascii_of_string map startsWith] in Hsw;
      repeat (apply andb_true_iff in Hsw as [? Hsw]); try discriminate.
    right. right. left. symmetry. now apply N.eqb_eq.
Qed.

Lemma replace_noMatch pattern replacement : forall s,
  noMatch pattern s = true -> replace pattern replacement s = s.
Proof.
  induction s as [|c s IH]; intros H; [reflexivity|].
  apply noMatch_cons in H as [Hc Hs]. rewrite replace_cons, Hc. now rewrite IH.
Qed.

Lemma noMatch_head (pattern : Pattern) (first : N) :
  (forall c s, c <> first -> pattern (c :: s) = None) -> pattern [] = None ->
  forall s, ~ In first s -> noMatch pattern s = true.
Proof.
  intros Hhead Hnil. induction s as [|c s IH]; intros Hs; simpl.
  - now rewrite Hnil.
  - rewrite Hhead by (intros ->; apply Hs; now left).
    apply IH. intros Hin. apply Hs. now right.
Qed.

Lemma literally_head first literal c s :
  c <> first -> literally (first :: literal) (c :: s) = None.
Proof.
  intros Hc. unfold literally. simpl.
  destruct (N.eqb_spec first c) as [->|_]; [congruence|reflexivity].
Qed.

Lemma anchorOpen_head c s : c <> lessThan -> anchorOpen (c :: s) = None.
Proof.
  intros Hc. apply anchorOpen_is_tag, anyTag_None. now left.
Qed.

Lemma anyTag_head c s : c <> lessThan -> anyTag (c :: s) = None.
Proof. intros Hc. apply anyTag_None. now left. Qed.

(** ** The body of a rendered comment *)

(** A text in which none of the five entities, no [<] and no blank line is
    found is emitted as it is, whatever else it holds: [cleanText] knows no
    entity but the five. *)
Lemma cleanText_other_entities text :
  Forall (fun entity => noMatch (literally entity) text = true) replacedEntities ->
  ~ In lessThan text -> noMatch blankLines text = true ->
  cleanText (Some text) = text.
Proof.
  intros Hfive Hlt Hblank.
  unfold replacedEntities in Hfive.
  repeat (apply Forall_cons_iff in Hfive as [? Hfive]).
  unfold cleanText, collapseBlankLines, stripTags, unescapeEntities.
  repeat (rewrite (replace_noMatch (literally _) _ text) by assumption).
  rewrite (replace_noMatch anchorOpen) by
    (apply (noMatch_head _ lessThan); [apply anchorOpen_head|reflexivity|exact Hlt]).
  rewrite (replace_noMatch (literally _)) by
    (apply (noMatch_head _ lessThan);
     [intros c s; apply literally_head|reflexivity|exact Hlt]).
  rewrite (replace_noMatch anyTag) by
    (apply (noMatch_head _ lessThan); [apply anyTag_head|reflexivity|exact Hlt]).
  now apply replace_noMatch.
Qed.

(** C8 on the code: the entities are not unescaped in the emitted body.  The
    replacements under [// Clean up HTML entities in text] are five literal
    ones, each to its character; [&amp;] is not among them, and the block of
    a comment whose text is [AT&amp;T] is emitted with the entity in it,
    where the unescaped text is [AT&T].  The tags are deleted after the
    entities are replaced, so that even one of the five is emitted when a
    tag stood inside it, and a [&lt;] and a [&gt;] of the text are deleted
    as a tag with all that is between them.  On every text without [<] and
    without a blank line, whatever is not one of the five is left as it is
    written. *)
Theorem formatComment_entity_emitted :
  formatComment ampComment 0
  = rootMarker ++ lit " **ma**" ++ [newline]
    ++ lit "   AT&amp;T" ++ [newline; newline] /\
  bodyLines ampComment 0 = lit "   AT&amp;T" ++ [newline; newline] /\
  bodyLines ampComment 0 <> lit "   AT&T" ++ [newline; newline] /\
  noMatch (literally (lit "&amp;")) (bodyLines ampComment 0) = false /\
  cleanText (Some (lit "a&#x2F;b &#x27;c&#x27; &quot;d&quot; e &gt; f &lt; g &amp; h"))
  = lit "a/b 'c' " ++ [quote] ++ lit "d" ++ [quote] ++ lit " e > f < g &amp; h" /\
  cleanText (Some (lit "&l<b>t;")) = lit "&lt;" /\
  cleanText (Some (lit "if a &lt; b and c &gt; d then")) = lit "if a  d then" /\
  (forall text,
     Forall (fun entity => noMatch (literally entity) text = true)
            replacedEntities ->
     ~ In lessThan text -> noMatch blankLines text = true ->
     cleanText (Some text) = text).
Proof.
  split; [vm_compute; reflexivity|].
  split; [vm_compute; reflexivity|].
  split; [vm_compute; discriminate|].
  split; [vm_compute; reflexivity|].
  split; [vm_compute; reflexivity|].
  split; [vm_compute; reflexivity|].
  split; [vm_compute; reflexivity|].
  exact cleanText_other_entities.
Qed.

(** The markup, the blank lines and the indentation of a body.  In the body
    of a rendered comment no anchor tag and no other tag is left, no two
    line breaks are left with white space between them, and every line of
    the text so cleaned is emitted behind two spaces per level of depth and
    three more; for a tree of the builder the level is the [depth] of the
    comment. *)
Lemma formatComment_body comment level :
  let text := match item_text (spread comment) with Some t => t | None => [] end in
  let clean := cleanText (item_text (spread comment)) in
  clean = collapseBlankLines (stripTags (unescapeEntities text)) /\
  noMatch anyTag clean = true /\
  noMatch anchorOpen clean = true /\
  noMatch (literally (lit "</a>")) clean = true /\
  noMatch blankGap clean = true /\
  Forall (fun line => ~ In newline line) (split newline clean) /\
  bodyLines comment level
  = concat (map (fun line => replicate (2 * level + 3) 32%N ++ line ++ [newline])
              (split newline clean))
    ++ [newline] /\
  formatComment comment level
  = headLine comment level ++ bodyLines comment level
    ++ flat_map (fun reply => formatComment reply (S level)) (repliesOf comment) /\
  (forall store lat ids D m tree,
     fetchComments store lat ids D m 0 = Some tree ->
     Forall (fun p => depth (fst p) = Z.of_nat (snd p))
            (flat_map (renderedAt O) tree)).
Proof.
  intros text clean.
  assert (Htag : noMatch anyTag clean = true) by apply cleanText_tagFree.
  split; [reflexivity|].
  split; [exact Htag|].
  split; [exact (noMatch_implied _ _ anchorOpen_is_tag _ Htag)|].
  split; [exact (noMatch_implied _ _ anchorClose_is_tag _ Htag)|].
  split; [apply blankLines_collapsed|].
  split; [apply split_lines|].
  split; [apply bodyLines_indented|].
  split; [apply formatComment_unfold|].
  intros store lat ids D m tree Htree.
  pose proof (renderedAt_depth _ _ _ _ _ _ _ Htree O) as H.
  eapply Forall_impl; [exact H|]. simpl. intros p Hp. lia.
Qed.

Lemma formatComment_body_witness :
  fetchComments threadStore inOrder threadRoots 3 1 0 = Some threadTree /\
  map (fun p => (item_id (spread (fst p)), snd p)) (flat_map (renderedAt O) threadTree)
  = [(103, 0%nat); (101, 0%nat); (202, 1%nat); (201, 1%nat); (301, 2%nat);
     (203, 1%nat); (102, 0%nat)] /\
  Forall (fun p => depth (fst p) = Z.of_nat (snd p))
         (flat_map (renderedAt O) threadTree).
Proof.
  split; [reflexivity|]. split; [reflexivity|].
  destruct (formatComment_body ampComment O)
    as (_ & _ & _ & _ & _ & _ & _ & _ & H).
  apply (H threadStore inOrder threadRoots 3 1). reflexivity.
Defined.

(** ** The handler *)

(** Through [get_story_comments] the root call is given all the [kids] of the
    story: for a story with twelve of them the first batch has twelve ids. *)
Lemma getStoryComments_root_batch :
  exists rest,
    snd (getStoryComments wideStore inOrder 1 None None None)
    = (0, [101; 102; 103; 104; 105; 106; 107; 108; 109; 110; 111; 112]) :: rest.
Proof. eexists. vm_compute. reflexivity. Qed.

(** With [min_score = 6] the handler shows all seven comments of the thread. *)
Lemma getStoryComments_minScore :
  fst (getStoryComments threadStore inOrder 100 (Some 6) None None)
  = Some (formatCommentsAsText threadTree (lit "My YC app: Dropbox") 100 7).
Proof. vm_compute. reflexivity. Qed.

(** * Further properties of the builder *)

Lemma map_sort_insert {A B} (f : A -> B) (key : B -> Z) x l :
  map f (sort_insert (descBy (fun a => key (f a))) x l)
  = sort_insert (descBy key) (f x) (map f l).
Proof.
  induction l as [|y l IH]; simpl; [reflexivity|].
  unfold descBy at 1 3. destruct (key (f y) - key (f x) <=? 0); simpl;
    [reflexivity|now rewrite IH].
Qed.

Lemma map_Array_sort {A B} (f : A -> B) (key : B -> Z) l :
  map f (Array_sort (descBy (fun a => key (f a))) l)
  = Array_sort (descBy key) (map f l).
Proof.
  induction l as [|x l IH]; simpl; [reflexivity|].
  change (fold_right (sort_insert ?c) [] ?k) with (Array_sort c k).
  now rewrite map_sort_insert, IH.
Qed.

(** X1.  The items of the roots a call returns are the live comments among
    the candidates, in the order the stable sort by score puts them; neither
    [maxDepth] nor [minScore] nor the schedule has a part in it. *)
Theorem fetchComments_root_items store lat ids D m d tree :
  d < D ->
  fetchComments store lat ids D m d = Some tree ->
  map spread tree
  = Array_sort (descBy itemRank)
      (List.filter keeps (filterBoolean (map (fetchItem store) ids))) /\
  (forall lat' D' m' tree',
     d < D' -> fetchComments store lat' ids D' m' d = Some tree' ->
     map spread tree' = map spread tree).
Proof.
  assert (Hroot : forall lat D m tree,
            d < D -> fetchComments store lat ids D m d = Some tree ->
            map spread tree
            = Array_sort (descBy itemRank)
                (List.filter keeps (filterBoolean (map (fetchItem store) ids)))).
  { clear. intros lat D m tree Hd Htree.
    rewrite fetchComments_eq in Htree by exact Hd.
    apply levelResult_Some in Htree as (comments & Hcs & ->).
    rewrite <- (level_spread store lat D m d ids comments Hcs).
    apply (map_Array_sort spread itemRank). }
  intros Hd Htree. split; [now apply (Hroot lat D m)|].
  intros lat' D' m' tree' Hd' Htree'.
  rewrite (Hroot lat' D' m' tree' Hd' Htree'). symmetry. now apply (Hroot lat D m).
Qed.

Lemma fetchComments_root_items_witness :
  0 < 3 /\
  fetchComments threadStore lastFirst threadRoots 3 1 0 = Some threadTree /\
  map item_id (map spread threadTree) = [103; 101; 102] /\
  map spread threadTree
  = Array_sort (descBy itemRank)
      (List.filter keeps (filterBoolean (map (fetchItem threadStore) threadRoots))).
Proof.
  split; [lia|]. split; [reflexivity|]. split; [reflexivity|].
  apply (fetchComments_root_items threadStore lastFirst threadRoots 3 1 0 threadTree);
    [lia|reflexivity].
Defined.

Lemma allFulfilled_rejected {A} (promises : list (option A)) :
  In None promises -> allFulfilled promises = None.
Proof.
  induction promises as [|[v|] promises IH]; simpl; [intros []| |reflexivity].
  intros [H|H]; [discriminate|]. now rewrite IH.
Qed.

Lemma fetchComments_rejected store lat ids D m d id :
  d < D -> In id ids -> nodeOf store lat D m d id = None ->
  fetchComments store lat ids D m d = None.
Proof.
  intros Hd Hin Hnode. rewrite fetchComments_eq by exact Hd. unfold levelResult.
  rewrite allFulfilled_rejected; [reflexivity|].
  rewrite <- Hnode. now apply in_map.
Qed.

(** X2.  One live comment whose time [toISOString] refuses makes the whole
    call fail, wherever it stands: among the candidates of the call, or
    anywhere below, since a call fails when the build of the children of one
    of its live candidates fails. *)
Theorem fetchComments_rejects store lat ids D m d id comment :
  d < D -> In id ids ->
  fetchItem store id = Some comment -> keeps comment = true ->
  (normalizeTime (item_time comment) = None \/
   hasKids comment = true /\ d < D - 1 /\
   fetchComments store lat (firstn 10 (kidsOf comment)) D m (d + 1) = None) ->
  fetchComments store lat ids D m d = None.
Proof.
  intros Hd Hin Hf Hk Hwhy. apply (fetchComments_rejected _ _ _ _ _ _ id Hd Hin).
  unfold nodeOf. rewrite Hf, Hk.
  destruct Hwhy as [->|(Hkids & Hdeep & Hsub)]; [reflexivity|].
  destruct (normalizeTime (item_time comment)); [|reflexivity].
  rewrite Hkids. replace (d <? D - 1) with true by (symmetry; now apply Z.ltb_lt).
  simpl. now rewrite Hsub.
Qed.

Lemma fetchComments_rejects_witness :
  0 < 3 /\ In 7 [5; 6; 7; 8] /\
  keeps (aComment 7 None None) = true /\
  fetchComments brokenClock inOrder [5; 6; 7; 8] 3 0 0 = None /\
  fetchComments brokenClock inOrder [5; 6; 8] 1 0 0 <> None.
Proof.
  split; [lia|]. split; [simpl; tauto|]. split; [reflexivity|].
  split; [|discriminate].
  eapply (fetchComments_rejects brokenClock inOrder [5; 6; 7; 8] 3 0 0 7);
    [lia|simpl; tauto|reflexivity|reflexivity|now left].
Defined.

(** X3.  When the time of every live comment of the store is one
    [toISOString] accepts, every call returns a tree, whatever the ids, the
    depths and the schedule. *)
Theorem fetchComments_never_rejects store lat ids D m d :
  (forall id comment, fetchItem store id = Some comment -> keeps comment = true ->
                      is_Some (normalizeTime (item_time comment))) ->
  exists tree, fetchComments store lat ids D m d = Some tree.
Proof.
  intros Htimes. now apply fetchComments_returns.
Qed.

Lemma fetchComments_never_rejects_witness :
  exists tree, fetchComments wideStore lastFirst elevenIds 4 0 0 = Some tree.
Proof.
  apply (fetchComments_never_rejects wideStore lastFirst elevenIds 4 0 0).
  intros id comment [= <-] _. now eexists.
Defined.

Lemma lookups_app log1 log2 :
  lookups (log1 ++ log2) = (lookups log1 + lookups log2)%nat.
Proof. induction log1 as [|b log1 IH]; simpl; [reflexivity|]. rewrite IH. lia. Qed.

Lemma childLog_cases store lat D m d id :
  childLog store lat D m d id = [] \/
  exists comment,
    d < D - 1 /\
    childLog store lat D m d id
    = fetchLog store lat (firstn 10 (kidsOf comment)) D m (d + 1).
Proof.
  unfold childLog. destruct (fetchItem store id) as [c|]; [|now left].
  destruct (keeps c); [|now left].
  destruct (normalizeTime _); [|now left].
  destruct (hasKids c); simpl; [|now left].
  destruct (Z.ltb_spec d (D - 1)); [|now left].
  right. now exists c.
Qed.

Lemma fetchLog_volume_levels store lat D m : forall n d ids,
  levelsLeft D d = n ->
  (lookups (fetchLog store lat ids D m d) <= length ids * reach n)%nat.
Proof.
  induction n as [|n IH]; intros d ids Hn.
  - rewrite fetchLog_guard; [simpl; lia|]. left. unfold levelsLeft in Hn. lia.
  - assert (Hd : d < D) by (unfold levelsLeft in Hn; lia).
    assert (Hn' : levelsLeft D (d + 1) = n)
      by (rewrite (levelsLeft_S D d Hd) in Hn; congruence).
    destruct ids as [|i ids]; [rewrite fetchLog_guard by (now right); simpl; lia|].
    rewrite fetchLog_eq by (lia || discriminate).
    cbn [lookups fold_right snd]. fold (lookups (concat (map (childLog store lat D m d) (i :: ids)))).
    assert (Hsub : (lookups (concat (map (childLog store lat D m d) (i :: ids)))
                    <= length (i :: ids) * (10 * reach n))%nat).
    { generalize (i :: ids). intros l. induction l as [|id l IHl]; [simpl; lia|].
      cbn [map concat length]. rewrite lookups_app.
      assert (Hone : (lookups (childLog store lat D m d id) <= 10 * reach n)%nat).
      { destruct (childLog_cases store lat D m d id) as [->|(c & _ & ->)];
          [simpl; lia|].
        etransitivity; [apply (IH (d + 1) _ Hn')|].
        apply Nat.mul_le_mono_r. rewrite length_take. lia. }
      lia. }
    cbn [reach]. lia.
Qed.

(** X4.  A call looks up at most as many items as its candidates can reach
    over the levels left when each comment expands ten children:
    [length ids * (1 + 10 + ... + 10^(levels - 1))]; a store in which every
    comment has more than ten children reaches the bound. *)
Theorem fetchLog_volume store lat ids D m d :
  (lookups (fetchLog store lat ids D m d)
   <= length ids * reach (levelsLeft D d))%nat /\
  lookups (fetchLog wideStore inOrder elevenIds 3 0 0)
  = (length elevenIds * reach (levelsLeft 3 0))%nat.
Proof.
  split; [now apply fetchLog_volume_levels|]. vm_compute. reflexivity.
Qed.

Lemma fetchLog_depths store lat D m : forall n d ids,
  levelsLeft D d = n ->
  Forall (fun b : Batch => d <= fst b < D) (fetchLog store lat ids D m d).
Proof.
  induction n as [|n IH]; intros d ids Hn.
  - rewrite fetchLog_guard; [constructor|]. left. unfold levelsLeft in Hn. lia.
  - assert (Hd : d < D) by (unfold levelsLeft in Hn; lia).
    assert (Hn' : levelsLeft D (d + 1) = n)
      by (rewrite (levelsLeft_S D d Hd) in Hn; congruence).
    destruct ids as [|i ids]; [rewrite fetchLog_guard by (now right); constructor|].
    rewrite fetchLog_eq by (lia || discriminate).
    constructor; [simpl; lia|].
    apply List.Forall_forall. intros b Hb.
    apply in_concat in Hb as (log & Hlog & Hb).
    apply in_map_iff in Hlog as (id & <- & _).
    destruct (childLog_cases store lat D m d id) as [Hnil|(c & _ & Hc)];
      rewrite ?Hnil, ?Hc in Hb; [destruct Hb|].
    specialize (IH (d + 1) (firstn 10 (kidsOf c)) Hn').
    rewrite List.Forall_forall in IH. specialize (IH b Hb). lia.
Qed.

(** X5.  In a returned tree the [time] of every node is the item's time in
    milliseconds, within the range of [Date]: the seconds times 1000 for a
    number, what [Date.parse] gives for a string that is not empty; it is
    [undefined] when the item has no time or an empty one. *)
Theorem fetchComments_times store lat ids D m d tree :
  fetchComments store lat ids D m d = Some tree ->
  Forall (fun c =>
            match item_time (spread c) with
            | TimeNumber seconds =>
              time c = IsoOfMillis (seconds * 1000) /\
              Z.abs (seconds * 1000) <= 8640000000000000
            | TimeString [] _ => time c = IsoUndefined
            | TimeString (_ :: _) parsed =>
              exists ms, parsed = Some ms /\ time c = IsoOfMillis ms /\
                         Z.abs ms <= 8640000000000000
            | TimeAbsent => time c = IsoUndefined
            end)
         (treeNodes tree).
Proof.
  apply fetchComments_nodes_ind. clear. intros d id c _ Hnode _.
  apply nodeOf_Some in Hnode as (_ & _ & _ & Ht & _).
  destruct (item_time (spread c)) as [seconds|[|x s] [ms|]|]; simpl in Ht;
    try discriminate; try (now injection Ht as <-).
  - destruct (Z.leb_spec (Z.abs (seconds * 1000)) 8640000000000000);
      [|discriminate].
    injection Ht as <-. now split.
  - destruct (Z.leb_spec (Z.abs ms) 8640000000000000); [|discriminate].
    injection Ht as <-. exists ms. now repeat split.
Qed.

Lemma fetchComments_times_witness :
  fetchComments threadStore inOrder threadRoots 3 1 0 = Some threadTree /\
  map time threadTree
  = [IsoOfMillis 1175714200000; IsoOfMillis 1175714200000;
     IsoOfMillis 1175714200000] /\
  Forall (fun c =>
            match item_time (spread c) with
            | TimeNumber seconds =>
              time c = IsoOfMillis (seconds * 1000) /\
              Z.abs (seconds * 1000) <= 8640000000000000
            | TimeString [] _ => time c = IsoUndefined
            | TimeString (_ :: _) parsed =>
              exists ms, parsed = Some ms /\ time c = IsoOfMillis ms /\
                         Z.abs ms <= 8640000000000000
            | TimeAbsent => time c = IsoUndefined
            end)
         (treeNodes threadTree).
Proof.
  split; [reflexivity|]. split; [reflexivity|].
  apply (fetchComments_times threadStore inOrder threadRoots 3 1 0 threadTree).
  reflexivity.
Defined.

Lemma fetchComments_fuel_minScore store lat D m1 m2 : forall fuel d ids,
  fetchComments_fuel fuel store lat ids D m1 d
  = fetchComments_fuel fuel store lat ids D m2 d.
Proof.
  induction fuel as [|fuel IH]; intros d ids; [reflexivity|].
  cbn [fetchComments_fuel].
  destruct ((d >=? D) || Nat.eqb (length ids) 0); [reflexivity|].
  assert (Hmap : forall f g : Z -> option (option Comment) * list Batch,
            (forall id, f id = g id) -> map f ids = map g ids)
    by (intros f g Hfg; apply map_ext; exact Hfg).
  erewrite Hmap; [reflexivity|]. intros id. cbv beta.
  destruct (fetchItem store id) as [c|]; [|reflexivity].
  destruct (keeps c); [|reflexivity].
  destruct (normalizeTime (item_time c)); [|reflexivity].
  destruct (hasKids c && (d <? D - 1)); [|reflexivity].
  now rewrite IH.
Qed.

(** * Further properties of the handler of [get_story_comments] *)

(** X6.  The [min_score] argument has no effect on what the handler returns
    nor on what it looks up. *)
Theorem getStoryComments_min_score_unused store lat story_id score1 score2
    max_depth limit :
  getStoryComments store lat story_id score1 max_depth limit
  = getStoryComments store lat story_id score2 max_depth limit.
Proof.
  unfold getStoryComments, fetchComments, fetchLog.
  destruct (fetchItem store story_id) as [story|]; [|reflexivity].
  destruct (item_kids story) as [kids|]; [|reflexivity].
  now rewrite (fetchComments_fuel_minScore store lat _ (orElse score1 1)
                 (orElse score2 1)).
Qed.

Lemma reach_mono n n' : (n <= n')%nat -> (reach n <= reach n')%nat.
Proof.
  revert n'. induction n as [|n IH]; intros [|n'] H; simpl; try lia.
  specialize (IH n'). lia.
Qed.

(** X7.  Whatever [max_depth] is asked for, the handler looks up no comment
    below level 9; its first batch is the [kids] of the story, whole, and
    every other batch has at most ten ids; in all it looks up at most
    [1 + 10 + ... + 10^9] items per child of the story. *)
Theorem getStoryComments_lookups store lat story_id min_score max_depth limit :
  let log := snd (getStoryComments store lat story_id min_score max_depth limit) in
  let kids := match fetchItem store story_id with
              | Some story => kidsOf story
              | None => []
              end in
  Forall (fun b : Batch =>
            0 <= fst b <= 9 /\
            (fst b = 0 /\ snd b = kids \/
             0 < fst b /\ (length (snd b) <= 10)%nat))
         log /\
  (lookups log <= length kids * reach 10)%nat.
Proof.
  intros log kids. subst log kids. unfold getStoryComments.
  destruct (fetchItem store story_id) as [story|]; [|split; [constructor|simpl; lia]].
  unfold kidsOf.
  destruct (item_kids story) as [kids|]; [|split; [constructor|simpl; lia]].
  set (D := Z.min (orElse max_depth 3) 10).
  set (m := orElse min_score 1).
  assert (Hlog : snd (match fetchComments store lat kids D m 0 with
                      | Some comments =>
                        (Some (formatCommentsAsText
                                 (sliceFromStart comments
                                    (Z.min (orElse limit 20) 100))
                                 match item_title story with
                                 | Some ((_ :: _) as title) => title
                                 | _ => lit "Unknown Story"
                                 end story_id
                                 (orElse (item_descendants story) 0)),
                         fetchLog store lat kids D m 0)
                      | None => (None, fetchLog store lat kids D m 0)
                      end) = fetchLog store lat kids D m 0)
    by (destruct (fetchComments store lat kids D m 0); reflexivity).
  cbv zeta. rewrite Hlog. split.
  - pose proof (fetchLog_batches store lat D m _ 0 kids eq_refl) as H1.
    pose proof (fetchLog_depths store lat D m _ 0 kids eq_refl) as H2.
    rewrite List.Forall_forall in *. intros b Hb.
    specialize (H1 b Hb). specialize (H2 b Hb). subst D. split; [lia|exact H1].
  - etransitivity; [apply (fetchLog_volume_levels store lat D m _ 0 kids eq_refl)|].
    apply Nat.mul_le_mono_l, reach_mono. unfold levelsLeft. subst D. lia.
Qed.

(** X8.  A story that is not found, or has no [kids] field, is answered with
    the JSON object of an empty comment list; a story whose [kids] is the
    empty array is answered with the text report and its line for no
    comments.  Neither looks anything up. *)
Theorem getStoryComments_no_comments store lat story_id min_score max_depth limit :
  (fetchItem store story_id = None \/
   (exists story, fetchItem store story_id = Some story /\
                  item_kids story = None) ->
   getStoryComments store lat story_id min_score max_depth limit
   = (Some (noCommentsJson story_id), [])) /\
  (forall story,
     fetchItem store story_id = Some story -> item_kids story = Some [] ->
     exists heading,
       getStoryComments store lat story_id min_score max_depth limit
       = (Some (heading ++ lit "No comments found matching the criteria."
                ++ [newline]), [])).
Proof.
  split.
  - intros [Hf|(story & Hf & Hk)]; unfold getStoryComments; rewrite Hf;
      [reflexivity|now rewrite Hk].
  - intros story Hf Hk. unfold getStoryComments. rewrite Hf, Hk.
    rewrite fetchComments_guard by (now right).
    rewrite fetchLog_guard by (now right).
    assert (Hnone : forall n : Z, sliceFromStart (@nil Comment) n = [])
      by (intros n; unfold sliceFromStart; destruct (n <? 0); apply firstn_nil).
    rewrite Hnone. unfold formatCommentsAsText. eexists. reflexivity.
Qed.

Lemma getStoryComments_no_comments_witness :
  fetchItem threadStore 105
  = Some {| item_id := 105; item_type := lit "story";
            item_by := Some (lit "pg");
            item_time := TimeNumber 1175714150; item_score := Some 3;
            item_text := None; item_title := Some (lit "Ask");
            item_descendants := Some 0; item_kids := None;
            item_deleted := false; item_dead := false |} /\
  getStoryComments threadStore inOrder 105 None None None
  = (Some (noCommentsJson 105), []).
Proof.
  split; [reflexivity|].
  apply (getStoryComments_no_comments threadStore inOrder 105 None None None).
  right. eexists. split; reflexivity.
Defined.

Lemma sorted_prefix_above {A} (key : A -> Z) n (l : list A) :
  nonIncreasing key l ->
  forall s h, In s (firstn n l) -> In h (skipn n l) -> key h <= key s.
Proof.
  unfold nonIncreasing. intros Hs. revert n.
  induction Hs as [|x l Hs IH Hx]; intros n s h; [now destruct n|].
  destruct n as [|n]; [intros []|]. simpl. intros [<-|Hin] Hh.
  - rewrite List.Forall_forall in Hx. apply Hx. eapply In_skipn_tail; exact Hh.
  - now apply (IH n).
Qed.

(** X9.  For a limit that is not negative the roots the handler renders are
    the first [min (limit || 20) 100] of the tree: never more than 100, and
    none of the roots left out has a higher score than one that is shown. *)
Theorem getStoryComments_shows_top store lat story_id min_score max_depth limit
    story kids tree :
  fetchItem store story_id = Some story ->
  item_kids story = Some kids ->
  fetchComments store lat kids (Z.min (orElse max_depth 3) 10)
    (orElse min_score 1) 0 = Some tree ->
  0 <= orElse limit 20 ->
  let count := Z.to_nat (Z.min (orElse limit 20) 100) in
  fst (getStoryComments store lat story_id min_score max_depth limit)
  = Some (formatCommentsAsText (firstn count tree)
            (match item_title story with
             | Some ((_ :: _) as title) => title
             | _ => lit "Unknown Story"
             end)
            story_id (orElse (item_descendants story) 0)) /\
  (length (firstn count tree) <= 100)%nat /\
  tree = firstn count tree ++ skipn count tree /\
  (forall shown hidden,
     In shown (firstn count tree) -> In hidden (skipn count tree) ->
     rank hidden <= rank shown).
Proof.
  intros Hf Hk Htree Hlimit count. split; [|split; [|split]].
  - unfold getStoryComments. rewrite Hf, Hk, Htree. cbn [fst].
    unfold sliceFromStart.
    replace (Z.min (orElse limit 20) 100 <? 0) with false
      by (symmetry; apply Z.ltb_ge; lia).
    reflexivity.
  - rewrite length_take. subst count. lia.
  - symmetry. apply firstn_skipn.
  - apply sorted_prefix_above.
    eapply fetchComments_sorted_roots; exact Htree.
Qed.

Lemma getStoryComments_shows_top_witness :
  0 <= orElse (Some 2) 20 /\
  fetchComments threadStore inOrder threadRoots (Z.min (orElse None 3) 10)
    (orElse None 1) 0 = Some threadTree /\
  map (fun c => item_id (spread c))
      (firstn (Z.to_nat (Z.min (orElse (Some 2) 20) 100)) threadTree)
  = [103; 101] /\
  (forall shown hidden,
     In shown (firstn (Z.to_nat (Z.min (orElse (Some 2) 20) 100)) threadTree) ->
     In hidden (skipn (Z.to_nat (Z.min (orElse (Some 2) 20) 100)) threadTree) ->
     rank hidden <= rank shown).
Proof.
  split; [simpl; lia|]. split; [reflexivity|]. split; [reflexivity|].
  assert (Hf : fetchItem threadStore 100 <> None) by discriminate.
  destruct (fetchItem threadStore 100) as [story|] eqn:Hstory; [|congruence].
  assert (Hk : item_kids story = Some threadRoots)
    by (injection Hstory as <-; reflexivity).
  apply (getStoryComments_shows_top threadStore inOrder 100 None None (Some 2)
           story threadRoots threadTree Hstory Hk);
    [reflexivity|simpl; lia].
Defined.

(** * Further properties of the renderer *)

(** Induction on a comment and the comments below it. *)
Lemma Comment_tree_ind (P : Comment -> Prop) :
  (forall s d t, P (mkComment s d t None)) ->
  (forall s d t rs, Forall P rs -> P (mkComment s d t (Some rs))) ->
  forall c, P c.
Proof.
  intros Hleaf Hnode. fix IH 1. intros [s d t [rs|]]; [|apply Hleaf].
  apply Hnode. revert rs. fix IHrs 1. intros [|r rs]; constructor;
    [apply IH|apply IHrs].
Qed.

Lemma flat_map_flat_map {A B C} (f : B -> list C) (g : A -> list B) l :
  flat_map f (flat_map g l) = flat_map (fun x => flat_map f (g x)) l.
Proof.
  induction l as [|x l IH]; simpl; [reflexivity|].
  now rewrite flat_map_app, IH.
Qed.

Lemma flat_map_Forall_ext {A B} (f g : A -> list B) l :
  Forall (fun x => f x = g x) l -> flat_map f l = flat_map g l.
Proof. induction 1 as [|x l Hx _ IH]; simpl; [reflexivity|now rewrite Hx, IH]. Qed.

Lemma formatComment_flat : forall comment level,
  formatComment comment level = flat_map blockOf (renderedAt level comment) /\
  map fst (renderedAt level comment) = nodes comment.
Proof.
  induction comment as [s d t|s d t rs IH] using Comment_tree_ind; intros level.
  - simpl. unfold blockOf. simpl. now rewrite !app_nil_r.
  - cbn [formatComment renderedAt nodes replies flat_map map fst].
    unfold blockOf at 1. cbn [fst snd]. rewrite <- app_assoc. split.
    + f_equal. f_equal. rewrite flat_map_flat_map.
      apply flat_map_Forall_ext. eapply Forall_impl; [exact IH|].
      intros r Hr. apply Hr.
    + f_equal. rewrite flat_map_concat_map, concat_map, map_map.
      rewrite (flat_map_concat_map nodes). f_equal.
      clear -IH. induction IH as [|r rs Hr _ IHrs]; simpl; [reflexivity|].
      now rewrite (proj2 (Hr (S level))), IHrs.
Qed.

(** X10.  The report renders every comment of the tree once, a comment before
    its replies and the replies in their order: it is the heading, then for
    a tree that is not empty a divider and, for every root, the blocks of the
    comments of its thread, each at its own level, and a divider. *)
Theorem formatCommentsAsText_blocks comments storyTitle storyId totalComments :
  comments <> [] ->
  let heading :=
    lit "# Hacker News Comments for Story " ++ showNumber storyId ++ [newline]
    ++ lit "## " ++ [quote] ++ storyTitle ++ [quote] ++ [newline]
    ++ chartMarker ++ lit " Total Comments: " ++ showNumber totalComments
    ++ lit " | Showing: " ++ showNumber (Z.of_nat (length comments))
    ++ [newline; newline] in
  let divider := lit "---" ++ [newline; newline] in
  formatCommentsAsText comments storyTitle storyId totalComments
  = heading ++ divider
    ++ flat_map (fun root =>
                   flat_map (fun p => headLine (fst p) (snd p)
                                      ++ bodyLines (fst p) (snd p))
                            (renderedAt O root)
                   ++ divider)
         comments /\
  map fst (flat_map (renderedAt O) comments) = treeNodes comments.
Proof.
  intros Hne heading divider. split.
  - unfold formatCommentsAsText. destruct comments as [|c cs]; [congruence|].
    subst heading divider. cbv zeta. f_equal.
    rewrite <- (app_assoc (lit "---")). do 2 f_equal.
    apply flat_map_ext. intros root.
    now rewrite (proj1 (formatComment_flat root O)).
  - unfold treeNodes. rewrite !flat_map_concat_map, concat_map, map_map.
    f_equal. apply map_ext. intros root. apply formatComment_flat.
Qed.

Lemma formatCommentsAsText_blocks_witness :
  threadTree <> [] /\
  map (fun p => (item_id (spread (fst p)), snd p))
      (flat_map (renderedAt O) threadTree)
  = [(103, 0%nat); (101, 0%nat); (202, 1%nat); (201, 1%nat); (301, 2%nat);
     (203, 1%nat); (102, 0%nat)] /\
  map fst (flat_map (renderedAt O) threadTree) = treeNodes threadTree.
Proof.
  split; [discriminate|]. split; [reflexivity|].
  apply (formatCommentsAsText_blocks threadTree (lit "My YC app: Dropbox") 100 7).
  discriminate.
Defined.

(** X11.  A text without [&], without [<] and without two line breaks that
    only white space separates is emitted as it is. *)
Theorem cleanText_plain text :
  ~ In 38%N text -> ~ In lessThan text -> noMatch blankLines text = true ->
  cleanText (Some text) = text.
Proof.
  intros Hamp Hlt Hblank. unfold cleanText, collapseBlankLines, stripTags,
    unescapeEntities.
  repeat (rewrite (replace_noMatch (literally _) _ text)
            by (apply (noMatch_head _ 38%N);
                [intros c s; apply literally_head|reflexivity|exact Hamp])).
  rewrite (replace_noMatch anchorOpen) by
    (apply (noMatch_head _ lessThan); [apply anchorOpen_head|reflexivity|exact Hlt]).
  rewrite (replace_noMatch (literally _)) by
    (apply (noMatch_head _ lessThan);
     [intros c s; apply literally_head|reflexivity|exact Hlt]).
  rewrite (replace_noMatch anyTag) by
    (apply (noMatch_head _ lessThan); [apply anyTag_head|reflexivity|exact Hlt]).
  now apply replace_noMatch.
Qed.

Lemma cleanText_plain_witness :
  cleanText (Some (lit "2 > 1, said pg" ++ [newline] ++ lit "- yes"))
  = lit "2 > 1, said pg" ++ [newline] ++ lit "- yes".
Proof.
  apply cleanText_plain; [| |reflexivity];
    (intros H; vm_compute in H;
     repeat (destruct H as [H|H]; [discriminate H|]); exact H).
Defined.

Lemma replace_length pattern replacement :
  (forall s n, pattern s = Some n ->
               (length replacement <= n <= length s)%nat) ->
  forall s, (length (replace pattern replacement s) <= length s)%nat.
Proof.
  intros Hfit.
  apply (replace_ind pattern replacement
           (fun s out => (length out <= length s)%nat)).
  - simpl. lia.
  - intros c s n Hp IH. apply Hfit in Hp. simpl in Hp.
    rewrite length_app. rewrite length_skipn in IH. simpl. lia.
  - intros c s _ IH. simpl. lia.
Qed.

Lemma startsWith_length literal : forall s,
  startsWith literal s = true -> (length literal <= length s)%nat.
Proof.
  induction literal as [|p literal IH]; intros [|c s] H; simpl in *;
    try lia; try discriminate.
  apply andb_true_iff in H as [_ H]. specialize (IH s H). lia.
Qed.

Lemma literally_fits (literal replacement s : list N) n :
  (length replacement <= length literal)%nat ->
  literally literal s = Some n ->
  (length replacement <= n <= length s)%nat.
Proof.
  unfold literally. intros Hr. destruct (startsWith literal s) eqn:Hs; [|discriminate].
  intros [= <-]. apply startsWith_length in Hs. lia.
Qed.

Lemma upTo_lt stop : forall s k, upTo stop s = Some k -> (k < length s)%nat.
Proof.
  induction s as [|c s IH]; intros k; simpl; [discriminate|].
  destruct (N.eqb c stop); [intros [= <-]; lia|].
  destruct (upTo stop s) as [j|]; [|discriminate].
  intros [= <-]. specialize (IH j eq_refl). lia.
Qed.

Lemma anyTag_fits s n : anyTag s = Some n -> (0 <= n <= length s)%nat.
Proof.
  destruct s as [|c s]; [discriminate|]. unfold anyTag.
  destruct (N.eqb c lessThan); [|discriminate].
  destruct (upTo greaterThan s) as [j|] eqn:Hj; [|discriminate].
  intros [= <-]. apply upTo_lt in Hj. simpl. lia.
Qed.

Lemma anchorOpen_fits s n : anchorOpen s = Some n -> (0 <= n <= length s)%nat.
Proof.
  unfold anchorOpen.
  destruct (startsWith _ s) eqn:Hs; [|discriminate].
  apply startsWith_length in Hs.
  destruct (upTo quote _) as [i|] eqn:Hi; [|discriminate].
  destruct (upTo greaterThan _) as [j|] eqn:Hj; [|discriminate].
  intros [= <-]. apply upTo_lt in Hi, Hj.
  rewrite !length_skipn in *.
  change (length (lit "<a href=" ++ [quote])) with 9%nat in *. lia.
Qed.

Lemma throughLastNewline_fits : forall s k,
  throughLastNewline s = Some k -> (1 <= k <= length s)%nat.
Proof.
  induction s as [|c s IH]; intros k; simpl; [discriminate|].
  destruct (isSpace c); [|discriminate].
  destruct (throughLastNewline s) as [n|].
  - intros [= <-]. specialize (IH n eq_refl). lia.
  - destruct (N.eqb c newline); [|discriminate]. intros [= <-]. lia.
Qed.

Lemma blankLines_fits s n : blankLines s = Some n -> (2 <= n <= length s)%nat.
Proof.
  destruct s as [|c s]; [discriminate|]. unfold blankLines.
  destruct (N.eqb c newline); [|discriminate].
  destruct (throughLastNewline s) as [k|] eqn:Hk; [|discriminate].
  intros [= <-]. apply throughLastNewline_fits in Hk. simpl. lia.
Qed.

(** X12.  Cleaning never lengthens a text: every replacement is at most as
    long as what it replaces. *)
Theorem cleanText_length text :
  (length (cleanText text)
   <= length (match text with Some t => t | None => [] end))%nat.
Proof.
  unfold cleanText, collapseBlankLines, stripTags, unescapeEntities.
  set (t := match text with Some t => t | None => [] end).
  etransitivity; [apply replace_length|].
  { intros s n H. apply blankLines_fits in H. simpl. lia. }
  etransitivity; [apply replace_length|].
  { intros s n H. apply anyTag_fits in H. simpl. lia. }
  etransitivity; [apply replace_length|].
  { intros s n. apply literally_fits. simpl. lia. }
  etransitivity; [apply replace_length|].
  { intros s n H. apply anchorOpen_fits in H. simpl. lia. }
  repeat (etransitivity;
          [apply replace_length; intros s n; apply literally_fits; simpl; lia|]).
  reflexivity.
Qed.

(** * Further properties of the fetcher *)

Lemma applyLengthLimits_take_drop (text : list N) (maxLength startIndex : Z) :
  0 <= startIndex -> 0 <= maxLength ->
  Fetcher.applyLengthLimits text maxLength startIndex
  = firstn (Z.to_nat maxLength) (skipn (Z.to_nat startIndex) text).
Proof.
  intros Hs Hm. unfold Fetcher.applyLengthLimits.
  set (len := Z.of_nat (length text)).
  destruct (Z.geb_spec startIndex len) as [Hge|Hlt].
  - rewrite skipn_all2 by lia. now rewrite firstn_nil.
  - unfold substring. fold len.
    replace (Z.min (Z.max startIndex 0) len) with startIndex by lia.
    set (finish := Z.min (startIndex + maxLength) len).
    replace (Z.min (Z.max finish 0) len) with finish by (subst finish; lia).
    replace (Z.min startIndex finish) with startIndex by (subst finish; lia).
    replace (Z.max startIndex finish) with finish by (subst finish; lia).
    destruct (Z.le_ge_cases (startIndex + maxLength) len) as [Hin|Hout].
    + f_equal. subst finish. lia.
    + rewrite !firstn_all2; [reflexivity| |]; rewrite length_skipn;
        subst finish; lia.
Qed.

Lemma firstn_add {A} (l : list A) : forall n k,
  firstn n l ++ firstn k (skipn n l) = firstn (n + k) l.
Proof.
  induction l as [|x l IH]; intros [|n] k; simpl;
    rewrite ?firstn_nil; try reflexivity.
  now rewrite IH.
Qed.

(** X13.  Consecutive windows tile the text: the window of [maxLength] code
    units at [startIndex], followed by the window of [more] at
    [startIndex + maxLength], is the window of [maxLength + more] at
    [startIndex]; the window of the whole length at 0 is the text. *)
Theorem applyLengthLimits_tiles (text : list N) (startIndex maxLength more : Z) :
  0 <= startIndex -> 0 <= maxLength -> 0 <= more ->
  Fetcher.applyLengthLimits text maxLength startIndex
  ++ Fetcher.applyLengthLimits text more (startIndex + maxLength)
  = Fetcher.applyLengthLimits text (maxLength + more) startIndex /\
  Fetcher.applyLengthLimits text (Z.of_nat (length text)) 0 = text.
Proof.
  intros Hs Hm Hmore. rewrite !applyLengthLimits_take_drop by lia. split.
  - rewrite Z2Nat.inj_add by lia. rewrite (Z2Nat.inj_add maxLength) by lia.
    rewrite <- drop_drop. apply firstn_add.
  - simpl. apply firstn_all2. lia.
Qed.

Lemma applyLengthLimits_tiles_witness :
  0 <= 2 /\ 0 <= 3 /\ 0 <= 4 /\
  Fetcher.applyLengthLimits (lit "abcdefghij") 3 2 = lit "cde" /\
  Fetcher.applyLengthLimits (lit "abcdefghij") 4 (2 + 3) = lit "fghi" /\
  Fetcher.applyLengthLimits (lit "abcdefghij") 3 2
  ++ Fetcher.applyLengthLimits (lit "abcdefghij") 4 (2 + 3)
  = Fetcher.applyLengthLimits (lit "abcdefghij") (3 + 4) 2.
Proof.
  split; [lia|]. split; [lia|]. split; [lia|].
  split; [reflexivity|]. split; [reflexivity|].
  apply (applyLengthLimits_tiles (lit "abcdefghij") 2 3 4); lia.
Defined.

Lemma applyLengthLimits_bounded (text : list N) (maxLength startIndex : Z) :
  0 <= maxLength ->
  (length (Fetcher.applyLengthLimits text maxLength startIndex)
   <= Z.to_nat maxLength)%nat.
Proof.
  intros Hm. unfold Fetcher.applyLengthLimits.
  set (len := Z.of_nat (length text)).
  destruct (Z.geb_spec startIndex len); [simpl; lia|].
  unfold substring. fold len. rewrite length_take. lia.
Qed.

(** X14.  For [maxLength >= 0] the window has at most [maxLength] code units,
    whatever [startIndex] is, negative ones included. *)
Theorem applyLengthLimits_at_most (text : list N) (maxLength startIndex : Z) :
  0 <= maxLength ->
  Z.of_nat (length (Fetcher.applyLengthLimits text maxLength startIndex))
  <= maxLength.
Proof.
  intros Hm. pose proof (applyLengthLimits_bounded text maxLength startIndex Hm).
  lia.
Qed.

Lemma applyLengthLimits_at_most_witness :
  0 <= 3 /\
  Fetcher.applyLengthLimits (lit "abcdefghij") 3 (-2) = lit "a" /\
  Z.of_nat (length (Fetcher.applyLengthLimits (lit "abcdefghij") 3 (-2))) <= 3.
Proof.
  split; [lia|]. split; [reflexivity|].
  apply (applyLengthLimits_at_most (lit "abcdefghij") 3 (-2)). lia.
Defined.

(** X15.  With a negative [maxLength] and a [startIndex] inside the text,
    [substring] exchanges its ends: the result is the part of the text
    before [startIndex], from [max 0 (startIndex + maxLength)] on.  It has
    [min startIndex (- maxLength)] code units, and so is empty only for
    [startIndex = 0]. *)
Theorem applyLengthLimits_negative (text : list N) (maxLength startIndex : Z) :
  maxLength < 0 -> 0 <= startIndex < Z.of_nat (length text) ->
  let from := Z.max 0 (startIndex + maxLength) in
  let result := Fetcher.applyLengthLimits text maxLength startIndex in
  result = firstn (Z.to_nat (startIndex - from)) (skipn (Z.to_nat from) text) /\
  Z.of_nat (length result) = Z.min startIndex (- maxLength) /\
  (result = [] <-> startIndex = 0).
Proof.
  intros Hm Hs from result.
  assert (Hresult : result = firstn (Z.to_nat (startIndex - from))
                               (skipn (Z.to_nat from) text)).
  { subst result. unfold Fetcher.applyLengthLimits.
    set (len := Z.of_nat (length text)) in *.
    destruct (Z.geb_spec startIndex len); [lia|].
    unfold substring. fold len.
    replace (Z.min (startIndex + maxLength) len) with (startIndex + maxLength) by lia.
    replace (Z.min (Z.max startIndex 0) len) with startIndex by lia.
    replace (Z.min (Z.max (startIndex + maxLength) 0) len) with from
      by (subst from; lia).
    replace (Z.min startIndex from) with from by (subst from; lia).
    replace (Z.max startIndex from) with startIndex by (subst from; lia).
    reflexivity. }
  assert (Hlength : Z.of_nat (length result) = Z.min startIndex (- maxLength)).
  { rewrite Hresult, length_firstn, length_skipn. subst from. lia. }
  split; [exact Hresult|]. split; [exact Hlength|].
  split.
  - intros Hnil. rewrite Hnil in Hlength. simpl in Hlength. lia.
  - intros Hzero. apply length_zero_iff_nil. lia.
Qed.

Lemma applyLengthLimits_negative_witness :
  -2 < 0 /\ 0 <= 4 < Z.of_nat (length (lit "abcdef")) /\
  Fetcher.applyLengthLimits (lit "abcdef") (-2) 4 = lit "cd" /\
  Fetcher.applyLengthLimits (lit "abcdef") (-2) 0 = [].
Proof.
  split; [lia|]. split; [simpl; lia|].
  destruct (applyLengthLimits_negative (lit "abcdef") (-2) 4) as (Heq & _);
    [lia|simpl; lia|].
  split; [rewrite Heq; reflexivity|].
  destruct (applyLengthLimits_negative (lit "abcdef") (-2) 0) as (_ & _ & Hempty);
    [lia|simpl; lia|].
  now apply Hempty.
Defined.

Section Respond.
Variable classifier : list N -> option bool.
Variable network : Fetcher.Network.
Variable convert : list N -> list N + list N.
Variable payload : Fetcher.RequestPayload.

(** X16.  A call succeeds exactly when the classifier does not say [true]
    for the URL, the host answers with an [ok] status and the conversion of
    the body does not throw.  Whenever these three hold the result is, with
    [isError: false], the window of the converted text, 5000 code units from
    0 unless the payload says otherwise; a result with [isError: false] comes
    about in no other way, and is at most as long as a [max_length] that is
    not negative. *)
Theorem respond_success :
  let result := fst (Fetcher.respond classifier network convert payload) in
  let maxLength := match Fetcher.max_length payload with
                   | Some n => n
                   | None => 5000
                   end in
  let startIndex := match Fetcher.start_index payload with
                    | Some n => n
                    | None => 0
                    end in
  let request := (Fetcher.url payload,
                  Fetcher.withDefaults (Fetcher.headers payload)) in
  (forall status body text,
     classifier (Fetcher.url payload) <> Some true ->
     network request = Fetcher.Responds true status body ->
     convert body = inr text ->
     result = {| Fetcher.content :=
                   Fetcher.applyLengthLimits text maxLength startIndex;
                 Fetcher.isError := false |}) /\
  (Fetcher.isError result = false ->
   classifier (Fetcher.url payload) <> Some true /\
   exists status body text,
     network request = Fetcher.Responds true status body /\
     convert body = inr text /\
     Fetcher.content result
     = Fetcher.applyLengthLimits text maxLength startIndex) /\
  (Fetcher.isError result = false -> 0 <= maxLength ->
   Z.of_nat (length (Fetcher.content result)) <= maxLength).
Proof.
  intros result maxLength startIndex request. subst result.
  unfold Fetcher.respond, Fetcher._fetch. fold maxLength startIndex request.
  destruct (classifier (Fetcher.url payload)) as [[|]|] eqn:Hc.
  - cbn [fst Fetcher.isError].
    split; [intros status body text Hno; now elim Hno|].
    split; discriminate.
  - destruct (network request) as [msg|[|] status body] eqn:Hn.
    + cbn [fst Fetcher.isError]. split; [discriminate|]. split; discriminate.
    + destruct (convert body) as [msg|text] eqn:Hb.
      * cbn [fst Fetcher.isError].
        split; [intros st b t _ [= <- <-] Hb'; congruence|]. split; discriminate.
      * cbn [fst Fetcher.isError Fetcher.content].
        split; [intros st b t _ [= <- <-] Hb'; congruence|].
        split; [intros _; split; [discriminate|now exists status, body, text]|].
        intros _ Hm.
        pose proof (applyLengthLimits_bounded text maxLength startIndex Hm). lia.
    + cbn [fst Fetcher.isError]. split; [discriminate|]. split; discriminate.
  - destruct (network request) as [msg|[|] status body] eqn:Hn.
    + cbn [fst Fetcher.isError]. split; [discriminate|]. split; discriminate.
    + destruct (convert body) as [msg|text] eqn:Hb.
      * cbn [fst Fetcher.isError].
        split; [intros st b t _ [= <- <-] Hb'; congruence|]. split; discriminate.
      * cbn [fst Fetcher.isError Fetcher.content].
        split; [intros st b t _ [= <- <-] Hb'; congruence|].
        split; [intros _; split; [discriminate|now exists status, body, text]|].
        intros _ Hm.
        pose proof (applyLengthLimits_bounded text maxLength startIndex Hm). lia.
    + cbn [fst Fetcher.isError]. split; [discriminate|]. split; discriminate.
Qed.

(** X17.  A call sends at most one request, to the URL of the payload and
    with the headers [withDefaults] makes of the payload's; it sends none
    when the classifier says [true]. *)
Theorem respond_one_request :
  let sent := snd (Fetcher.respond classifier network convert payload) in
  (sent = [] \/
   sent = [(Fetcher.url payload,
            Fetcher.withDefaults (Fetcher.headers payload))]) /\
  (sent = [] <-> classifier (Fetcher.url payload) = Some true).
Proof.
  intros sent. subst sent. unfold Fetcher.respond, Fetcher._fetch.
  destruct (classifier (Fetcher.url payload)) as [[|]|];
    [cbn [snd]; split; [now left|tauto]| |];
    (destruct (network _) as [msg|[|] status body];
     [|destruct (convert body)|]; cbn [snd];
     (split; [now right|split; discriminate])).
Qed.
End Respond.

(** X18.  Every request carries exactly one [User-Agent] header, the caller's
    when the payload has one and the browser-like default otherwise; the
    other headers of the payload are sent as they are. *)
Theorem withDefaults_user_agent (headers : option Fetcher.Headers) :
  let given := match headers with Some hs => hs | None => [] end in
  let isAgent := fun h : list N * list N => str_eqb (fst h) (lit "User-Agent") in
  let sent := Fetcher.withDefaults headers in
  length (List.filter isAgent sent) = 1%nat /\
  List.find isAgent sent
  = Some (lit "User-Agent",
          match List.find isAgent given with
          | Some (_, agent) => agent
          | None => Fetcher.userAgent
          end) /\
  List.filter (fun h => negb (isAgent h)) sent
  = List.filter (fun h => negb (isAgent h)) given.
Proof.
  intros given isAgent sent. subst sent. unfold Fetcher.withDefaults.
  fold given. fold isAgent.
  assert (Hnone : forall l, List.filter isAgent
                              (List.filter (fun h => negb (isAgent h)) l) = []).
  { induction l as [|h l IH]; simpl; [reflexivity|].
    destruct (isAgent h) eqn:Hh; simpl; [exact IH|now rewrite Hh]. }
  assert (Hidem : forall l, List.filter (fun h => negb (isAgent h))
                              (List.filter (fun h => negb (isAgent h)) l)
                            = List.filter (fun h => negb (isAgent h)) l).
  { induction l as [|h l IH]; simpl; [reflexivity|].
    destruct (isAgent h) eqn:Hh; simpl; [exact IH|now rewrite Hh, IH]. }
  destruct (List.find isAgent given) as [[key agent]|] eqn:Hfind.
  - simpl. change (isAgent (lit "User-Agent", agent)) with true.
    cbn [negb]. rewrite Hnone, Hidem. repeat split; reflexivity.
  - simpl. change (isAgent (lit "User-Agent", Fetcher.userAgent)) with true.
    cbn [negb].
    assert (Hall : forall h, In h given -> isAgent h = false)
      by (intros h; now apply (find_none isAgent given Hfind)).
    assert (Hgiven : List.filter isAgent given = []).
    { clear -Hall. induction given as [|h l IH]; simpl; [reflexivity|].
      rewrite (Hall h) by (now left). apply IH. intros h' Hh'. apply Hall. now right. }
    rewrite Hgiven. repeat split; reflexivity.
Qed.

(** * Further properties: the plain text of a page *)

Lemma whiteSpace_None c s : whiteSpace (c :: s) = None <-> isSpace c = false.
Proof.
  unfold whiteSpace. simpl. destruct (isSpace c); split; congruence.
Qed.

Lemma whiteSpace_Some s n :
  whiteSpace s = Some n -> n = spaceRun s /\ (1 <= n)%nat.
Proof.
  unfold whiteSpace. destruct (spaceRun s) as [|k]; [discriminate|].
  intros [= <-]. split; [reflexivity|lia].
Qed.

(** Behind a run of white space there is none. *)
Lemma spaceRun_rest : forall s, whiteSpace (skipn (spaceRun s) s) = None.
Proof.
  induction s as [|c s IH]; [reflexivity|]. simpl.
  destruct (isSpace c) eqn:Hc; [exact IH|]. simpl. now apply whiteSpace_None.
Qed.

Lemma spaceRun_words : forall s,
  List.filter (fun c => negb (isSpace c)) (skipn (spaceRun s) s)
  = List.filter (fun c => negb (isSpace c)) s.
Proof.
  induction s as [|c s IH]; [reflexivity|]. simpl.
  destruct (isSpace c) eqn:Hc; simpl; [exact IH|now rewrite Hc].
Qed.

Lemma twoSpaces_cons c s :
  isSpace c = false \/ startsPlain s -> twoSpaces (c :: s) = None.
Proof.
  destruct s as [|b s]; [reflexivity|]. unfold twoSpaces. simpl.
  intros [->| ->]; [reflexivity|now rewrite andb_false_r].
Qed.

Lemma replace_whiteSpace_facts : forall s,
  let out := replace whiteSpace (lit " ") s in
  (whiteSpace s = None -> startsPlain out) /\
  Forall (fun c => isSpace c = true -> c = 32%N) out /\
  noMatch twoSpaces out = true /\
  List.filter (fun c => negb (isSpace c)) out
  = List.filter (fun c => negb (isSpace c)) s.
Proof.
  apply (replace_ind whiteSpace (lit " ")
           (fun s out =>
              (whiteSpace s = None -> startsPlain out) /\
              Forall (fun c => isSpace c = true -> c = 32%N) out /\
              noMatch twoSpaces out = true /\
              List.filter (fun c => negb (isSpace c)) out
              = List.filter (fun c => negb (isSpace c)) s)).
  - repeat split; constructor.
  - intros c s n Hp (Hhead & Hall & Htwo & Hwords).
    pose proof (whiteSpace_Some _ _ Hp) as [Hn Hpos].
    assert (Hrest : skipn (Nat.pred n) s = skipn (spaceRun (c :: s)) (c :: s)).
    { rewrite <- Hn. destruct n; [lia|reflexivity]. }
    rewrite Hrest in *. specialize (Hhead (spaceRun_rest (c :: s))).
    split; [intros H; congruence|]. split; [|split].
    + constructor; [reflexivity|exact Hall].
    + change (lit " " ++ ?l) with (32%N :: l). apply noMatch_cons.
      split; [apply twoSpaces_cons; now right|exact Htwo].
    + change (lit " " ++ ?l) with (32%N :: l).
      change (List.filter ?f (32%N :: ?l)) with (List.filter f l).
      rewrite Hwords. apply spaceRun_words.
  - intros c s Hp (Hhead & Hall & Htwo & Hwords).
    apply whiteSpace_None in Hp.
    split; [intros _; exact Hp|]. split; [|split].
    + constructor; [congruence|exact Hall].
    + apply noMatch_cons. split; [apply twoSpaces_cons; now left|exact Htwo].
    + simpl. rewrite Hp. simpl. now rewrite Hwords.
Qed.

Lemma trimStart_skipn : forall s, trimStart s = skipn (spaceRun s) s.
Proof.
  induction s as [|c s IH]; [reflexivity|]. simpl.
  destruct (isSpace c); [exact IH|reflexivity].
Qed.

Lemma trimStart_plain : forall s, startsPlain (trimStart s).
Proof.
  induction s as [|c s IH]; [exact I|]. simpl.
  destruct (isSpace c) eqn:Hc; [exact IH|exact Hc].
Qed.

Lemma trimStart_id s : startsPlain s -> trimStart s = s.
Proof.
  destruct s as [|c s]; [reflexivity|]. simpl. now intros ->.
Qed.

(** [trimEnd] takes a run of white space off the end. *)
Lemma trimEnd_split : forall s,
  exists tail, s = trimEnd s ++ tail /\ Forall (fun c => isSpace c = true) tail.
Proof.
  induction s as [|c s (tail & Hs & Htail)]; [exists []; now split|].
  simpl. destruct (trimEnd s) as [|r rest] eqn:Hr.
  - simpl in Hs. subst tail. destruct (isSpace c) eqn:Hc.
    + exists (c :: s). split; [reflexivity|now constructor].
    + exists s. split; [reflexivity|exact Htail].
  - exists tail. split; [|exact Htail]. simpl. f_equal. exact Hs.
Qed.

Lemma trimEnd_startsPlain s : startsPlain s -> startsPlain (trimEnd s).
Proof.
  destruct s as [|c s]; [trivial|]. simpl. intros Hc.
  destruct (trimEnd s); [now rewrite Hc|exact Hc].
Qed.

Lemma trimEnd_plain : forall s front c,
  trimEnd s = front ++ [c] -> isSpace c = false.
Proof.
  induction s as [|x s IH]; intros front c; simpl.
  - destruct front; discriminate.
  - destruct (trimEnd s) as [|r rest] eqn:Hr.
    + destruct (isSpace x) eqn:Hx; [destruct front; discriminate|].
      destruct front as [|f [|g front]]; [|discriminate|discriminate].
      now intros [= <-].
    + destruct front as [|f front]; [discriminate|].
      intros [= _ Hrest]. now apply (IH front c).
Qed.

Lemma trimEnd_id : forall s,
  (forall front c, s = front ++ [c] -> isSpace c = false) -> trimEnd s = s.
Proof.
  induction s as [|x s IH]; [reflexivity|]. intros Hlast. simpl.
  rewrite IH by (intros front c ->; now apply (Hlast (x :: front) c)).
  destruct s as [|y s]; [|reflexivity].
  now rewrite (Hlast [] x eq_refl).
Qed.

Lemma twoSpaces_prefix : forall a b,
  noMatch twoSpaces (a ++ b) = true -> noMatch twoSpaces a = true.
Proof.
  induction a as [|c a IH]; intros b; [reflexivity|].
  change ((c :: a) ++ b) with (c :: (a ++ b)).
  rewrite !noMatch_cons. intros [Hc Hrest]. split; [|now apply (IH b)].
  destruct a as [|d a]; [reflexivity|exact Hc].
Qed.

Lemma filter_spaces tail :
  Forall (fun c => isSpace c = true) tail ->
  List.filter (fun c => negb (isSpace c)) tail = [].
Proof.
  induction 1 as [|c tail Hc _ IH]; [reflexivity|]. simpl. now rewrite Hc.
Qed.

(** Text in which white space is single spaces is left as it is by
    [replace(/\s+/g, ' ')]. *)
Lemma replace_whiteSpace_id : forall s,
  Forall (fun c => isSpace c = true -> c = 32%N) s ->
  noMatch twoSpaces s = true ->
  replace whiteSpace (lit " ") s = s.
Proof.
  induction s as [|c s IH]; [reflexivity|]. intros Hall Htwo.
  apply Forall_cons_iff in Hall as [Hc Hall].
  apply noMatch_cons in Htwo as [Hhere Htwo].
  rewrite replace_cons. specialize (IH Hall Htwo). unfold whiteSpace.
  cbn [spaceRun]. destruct (isSpace c) eqn:Hsp.
  - assert (Hrun : spaceRun s = O).
    { destruct s as [|d s]; [reflexivity|]. simpl.
      unfold twoSpaces in Hhere. rewrite Hsp in Hhere. simpl in Hhere.
      destruct (isSpace d); [discriminate|reflexivity]. }
    rewrite Hrun. cbn [Nat.pred skipn]. rewrite (Hc eq_refl).
    change (lit " " ++ ?l) with (32%N :: l). f_equal. exact IH.
  - f_equal. exact IH.
Qed.

(** The shape of normalized text. *)
Lemma normalizedText_facts (text : list N) :
  let out := normalizedText text in
  let visible := List.filter (fun c => negb (isSpace c)) in
  Forall (fun c => isSpace c = true -> c = 32%N) out /\
  noMatch twoSpaces out = true /\
  (forall c rest, out = c :: rest -> isSpace c = false) /\
  (forall front c, out = front ++ [c] -> isSpace c = false) /\
  visible out = visible text.
Proof.
  intros out visible. subst out visible. unfold normalizedText, trim.
  destruct (replace_whiteSpace_facts text) as (_ & Hall & Htwo & Hwords).
  set (spaced := replace whiteSpace (lit " ") text) in *.
  destruct (trimEnd_split (trimStart spaced)) as (tail & Hsplit & Htail).
  assert (Hall' : Forall (fun c => isSpace c = true -> c = 32%N) (trimStart spaced)).
  { rewrite trimStart_skipn. rewrite List.Forall_forall in *.
    intros c Hc. apply Hall. eapply In_skipn_tail; eauto. }
  assert (Htwo' : noMatch twoSpaces (trimStart spaced) = true).
  { rewrite trimStart_skipn. now apply noMatch_skipn. }
  split; [|split; [|split; [|split]]].
  - rewrite Hsplit in Hall'. now apply Forall_app in Hall' as [H _].
  - rewrite Hsplit in Htwo'. now apply twoSpaces_prefix in Htwo'.
  - intros c rest Hout.
    pose proof (trimEnd_startsPlain _ (trimStart_plain spaced)) as Hhead.
    rewrite Hout in Hhead. exact Hhead.
  - apply trimEnd_plain.
  - rewrite <- Hwords. rewrite <- (spaceRun_words spaced), <- trimStart_skipn.
    transitivity (List.filter (fun c => negb (isSpace c))
                    (trimEnd (trimStart spaced) ++ tail));
      [|now rewrite <- Hsplit].
    rewrite List.filter_app, (filter_spaces tail Htail). now rewrite app_nil_r.
Qed.

(** X19.  The text of a page is normalized: the only white space left in
    it is the single space, never two side by side and none at either end,
    and the other characters are those of the text content in their
    order. *)
Theorem normalizedText_normal (text : list N) :
  let out := normalizedText text in
  let visible := List.filter (fun c => negb (isSpace c)) in
  Forall (fun c => isSpace c = true -> c = 32%N) out /\
  noMatch twoSpaces out = true /\
  (forall c rest, out = c :: rest -> isSpace c = false) /\
  (forall front c, out = front ++ [c] -> isSpace c = false) /\
  visible out = visible text.
Proof.
  exact (normalizedText_facts text).
Qed.

(** X20.  Normalizing is idempotent: the text of a page is a fixed point of
    the normalization that produced it. *)
Theorem normalizedText_idempotent (text : list N) :
  normalizedText (normalizedText text) = normalizedText text.
Proof.
  destruct (normalizedText_facts text) as (Hall & Htwo & Hhead & Hlast & _).
  set (out := normalizedText text) in *.
  unfold normalizedText at 1. rewrite (replace_whiteSpace_id out Hall Htwo).
  unfold trim. rewrite trimStart_id; [now apply trimEnd_id|].
  destruct out as [|c rest]; [exact I|]. now apply (Hhead c rest).
Qed.
